(** * The container collision simulation of [kollision.cpp]

    A shallow embedding of [runCollisionSimulation]: the event handlers
    (space key, mouse press, mouse release), the move-and-wall loop and the
    ball-ball loop of one frame.  The window, the renderer and the random
    initial placement are left out; a frame is a function of the delivered
    events and of the clock's [dt].

    The C++ code computes on [float].  The embedding is written once, over an
    interface [Scalar] of the arithmetic the code uses, and read at two
    instances: IEEE binary32 (executable, through [SpecFloat]) and the real
    numbers (the exact arithmetic the algebraic laws are stated in). *)

From Stdlib Require Import ZArith Bool Lia Reals Lra.
From Stdlib Require Import Floats.SpecFloat.
From stdpp Require Import base option list.

Set Default Proof Using "Type".

(** ** Scalar arithmetic *)

(** The operations of [float] that the simulation uses.  [lit n d] is the
    literal of value [n/d] and [fhypot] is [std::hypot]. *)
Class Scalar (F : Type) := {
  lit : Z -> positive -> F;
  fadd : F -> F -> F;
  fsub : F -> F -> F;
  fmul : F -> F -> F;
  fdiv : F -> F -> F;
  fneg : F -> F;
  flt : F -> F -> bool;
  fle : F -> F -> bool;
  fhypot : F -> F -> F
}.

Declare Scope scalar_scope.
Delimit Scope scalar_scope with sc.
Infix "⊕" := fadd (at level 50, left associativity) : scalar_scope.
Infix "⊖" := fsub (at level 50, left associativity) : scalar_scope.
Infix "⊗" := fmul (at level 40, left associativity) : scalar_scope.
Infix "⊘" := fdiv (at level 40, left associativity) : scalar_scope.
Infix "<?" := flt (at level 70, no associativity) : scalar_scope.
Infix "<=?" := fle (at level 70, no associativity) : scalar_scope.

(** *** IEEE binary32, the machine's [float] *)
Module Binary32.
Definition prec : Z := 24.
Definition emax : Z := 128.

Definition of_Z (z : Z) : spec_float := binary_normalize prec emax z 0 false.

(** A decimal literal is the binary32 value nearest to [n/d]; for [n] and
    [d] below [2^24] that is the correctly rounded quotient. *)
Definition literal (n : Z) (d : positive) : spec_float :=
  SFdiv prec emax (of_Z n) (of_Z (Z.pos d)).

(** [std::hypot] belongs to the C library: it is taken as the correctly
    rounded length, the binary32 value nearest to the square root of
    [x*x + y*y], as the C libraries aim at.  The two squares and their sum are
    formed without rounding, in a format wide enough to hold them, and the
    square root is rounded once; an infinite argument gives infinity. *)
Definition wprec : Z := 700.
Definition wemax : Z := 1024.

Definition hypot (x y : spec_float) : spec_float :=
  match x, y with
  | S754_infinity _, _ | _, S754_infinity _ => S754_infinity false
  | _, _ =>
      SFsqrt prec emax
        (SFadd wprec wemax (SFmul wprec wemax x x) (SFmul wprec wemax y y))
  end.
End Binary32.

#[export] Instance binary32 : Scalar spec_float := {|
  lit := Binary32.literal;
  fadd := SFadd Binary32.prec Binary32.emax;
  fsub := SFsub Binary32.prec Binary32.emax;
  fmul := SFmul Binary32.prec Binary32.emax;
  fdiv := SFdiv Binary32.prec Binary32.emax;
  fneg := SFopp;
  flt := SFltb;
  fle := SFleb;
  fhypot := Binary32.hypot
|}.

(** *** Exact arithmetic on the real numbers *)
Module Exact.
Definition literal (n : Z) (d : positive) : R := (IZR n / IZR (Z.pos d))%R.
Definition ltb (x y : R) : bool := if Rlt_dec x y then true else false.
Definition leb (x y : R) : bool := if Rle_dec x y then true else false.
Definition hypot (x y : R) : R := sqrt (x * x + y * y).
End Exact.

#[export] Instance exact : Scalar R := {|
  lit := Exact.literal;
  fadd := Rplus;
  fsub := Rminus;
  fmul := Rmult;
  fdiv := Rdiv;
  fneg := Ropp;
  flt := Exact.ltb;
  fle := Exact.leb;
  fhypot := Exact.hypot
|}.

(** ** The simulation, over any scalar arithmetic *)
Section Simulation.
Context {F : Type} `{Scalar F}.
Local Open Scope scalar_scope.

(** *** Data: [sf::Vector2f], [Ball], [sf::FloatRect], the drag slot *)

Record Vec2 := mkVec2 { vx : F; vy : F }.

(** [shape] is kept as its position only: radius, origin and colour of the
    [sf::CircleShape] are never read back by the simulation. *)
Record Ball := mkBall { position : Vec2; velocity : Vec2; radius : F }.

Record FloatRect := mkRect { left : F; top : F; width : F; height : F }.

Record World := mkWorld {
  balls : list Ball;
  dragging : bool;
  dragIndex : Z;
  dragStart : Vec2
}.

(** The operators of [sf::Vector2<T>]. *)
Definition vneg (a : Vec2) : Vec2 := mkVec2 (fneg (vx a)) (fneg (vy a)).
Definition vadd (a b : Vec2) : Vec2 := mkVec2 (vx a ⊕ vx b) (vy a ⊕ vy b).
Definition vsub (a b : Vec2) : Vec2 := mkVec2 (vx a ⊖ vx b) (vy a ⊖ vy b).
Definition vscale (a : Vec2) (s : F) : Vec2 := mkVec2 (vx a ⊗ s) (vy a ⊗ s).
Definition vdiv (a : Vec2) (s : F) : Vec2 := mkVec2 (vx a ⊘ s) (vy a ⊘ s).
Definition vzero : Vec2 := mkVec2 (lit 0 1) (lit 0 1).

(** [sf::Transformable::setPosition] and [move], and field updates. *)
Definition setPosition (p : Vec2) (b : Ball) : Ball :=
  mkBall p (velocity b) (radius b).
Definition move (off : Vec2) (b : Ball) : Ball :=
  setPosition (vadd (position b) off) b.
Definition setVelocity (v : Vec2) (b : Ball) : Ball :=
  mkBall (position b) v (radius b).
Definition scaleVelX (s : F) (b : Ball) : Ball :=
  setVelocity (mkVec2 (vx (velocity b) ⊗ s) (vy (velocity b))) b.
Definition scaleVelY (s : F) (b : Ball) : Ball :=
  setVelocity (mkVec2 (vx (velocity b)) (vy (velocity b) ⊗ s)) b.

(** *** Constants of [runCollisionSimulation] *)

Definition restitution : F := lit 8 10.
Definition throwScale : F := lit 5 1.

(** [bounds(50.f, 50.f, windowSize.x - 100.f, windowSize.y - 100.f)] with
    [windowSize = {800, 600}]. *)
Definition bounds : FloatRect :=
  mkRect (lit 50 1) (lit 50 1)
         (lit 800 1 ⊖ lit 100 1) (lit 600 1 ⊖ lit 100 1).

(** *** Move & wall collision (lines 112-135) *)

(** The four tests read [p], the position taken once after the move; each
    branch writes the position as a whole, its other coordinate from [p]. *)
Definition crossedLeft (bd : FloatRect) (p : Vec2) (b : Ball) : bool :=
  vx p ⊖ radius b <? left bd.
Definition crossedRight (bd : FloatRect) (p : Vec2) (b : Ball) : bool :=
  left bd ⊕ width bd <? vx p ⊕ radius b.
Definition crossedTop (bd : FloatRect) (p : Vec2) (b : Ball) : bool :=
  vy p ⊖ radius b <? top bd.
Definition crossedBottom (bd : FloatRect) (p : Vec2) (b : Ball) : bool :=
  top bd ⊕ height bd <? vy p ⊕ radius b.

Definition hitLeft (bd : FloatRect) (p : Vec2) (b : Ball) : Ball :=
  if crossedLeft bd p b then
    scaleVelX (fneg restitution)
      (setPosition (mkVec2 (left bd ⊕ radius b) (vy p)) b)
  else b.

Definition hitRight (bd : FloatRect) (p : Vec2) (b : Ball) : Ball :=
  if crossedRight bd p b then
    scaleVelX (fneg restitution)
      (setPosition (mkVec2 (left bd ⊕ width bd ⊖ radius b) (vy p)) b)
  else b.

Definition hitTop (bd : FloatRect) (p : Vec2) (b : Ball) : Ball :=
  if crossedTop bd p b then
    scaleVelY (fneg restitution)
      (setPosition (mkVec2 (vx p) (top bd ⊕ radius b)) b)
  else b.

Definition hitBottom (bd : FloatRect) (p : Vec2) (b : Ball) : Ball :=
  if crossedBottom bd p b then
    scaleVelY (fneg restitution)
      (setPosition (mkVec2 (vx p) (top bd ⊕ height bd ⊖ radius b)) b)
  else b.

(** The four [if]s of one loop iteration, after the move. *)
Definition wallCollide (bd : FloatRect) (b : Ball) : Ball :=
  let p := position b in
  hitBottom bd p (hitTop bd p (hitRight bd p (hitLeft bd p b))).

(** [b.shape.move(b.velocity * dt)]. *)
Definition integrate (dt : F) (b : Ball) : Ball :=
  move (vscale (velocity b) dt) b.

Definition moveAndWall (bd : FloatRect) (dt : F) (b : Ball) : Ball :=
  wallCollide bd (integrate dt b).

Definition wallPass (bd : FloatRect) (bs : list Ball) : list Ball :=
  wallCollide bd <$> bs.

(** *** Ball-ball collisions (lines 138-159) *)

(** A scalar is a zero divisor when it is neither above nor below [0.f]. *)
Definition isZero (s : F) : bool :=
  negb (lit 0 1 <? s) && negb (s <? lit 0 1).

(** [v / s] of [sf::Vector2f]; [None] reports a division by zero. *)
Definition checkedDiv (a : Vec2) (s : F) : option Vec2 :=
  if isZero s then None else Some (vdiv a s).

Definition centerDelta (A B : Ball) : Vec2 := vsub (position B) (position A).
Definition dist (A B : Ball) : F :=
  fhypot (vx (centerDelta A B)) (vy (centerDelta A B)).
Definition minD (A B : Ball) : F := radius A ⊕ radius B.
Definition dot (a b : Vec2) : F := vx a ⊗ vx b ⊕ vy a ⊗ vy b.

(** The outer test [dist < minD && dist > 0.f]. *)
Definition inContact (A B : Ball) : bool :=
  (dist A B <? minD A B) && (lit 0 1 <? dist A B).

(** The impulse [jimp] and the bodies after the inner branch, given [n]. *)
Definition impulse (vrel : F) : F :=
  fneg (lit 1 1 ⊕ restitution) ⊗ vrel ⊘ lit 2 1.

Definition bounce (n : Vec2) (vrel : F) (A B : Ball) : Ball * Ball :=
  let P := vscale n (impulse vrel) in
  let A1 := setVelocity (vadd (velocity A) P) A in
  let B1 := setVelocity (vsub (velocity B) P) B in
  let overlap := minD A B ⊖ dist A B in
  (move (vscale (vneg n) (overlap ⊗ lit 1 2)) A1,
   move (vscale n (overlap ⊗ lit 1 2)) B1).

(** The body of the inner loop on [A = balls[i]], [B = balls[j]]. *)
Definition collide (A B : Ball) : option (Ball * Ball) :=
  if inContact A B then
    n ← checkedDiv (centerDelta A B) (dist A B);
    let vrel := dot (vsub (velocity A) (velocity B)) n in
    if vrel <? lit 0 1 then Some (bounce n vrel A B) else Some (A, B)
  else Some (A, B).

(** The same on the vector; [None] also reports an index out of range. *)
Definition collideAt (i j : nat) (bs : list Ball) : option (list Ball) :=
  A ← bs !! i;
  B ← bs !! j;
  AB ← collide A B;
  Some (<[j := AB.2]> (<[i := AB.1]> bs)).

(** A [for] loop over the indices [xs] whose body may fail. *)
Fixpoint forEach {I S : Type} (body : I -> S -> option S)
    (xs : list I) (s : S) : option S :=
  match xs with
  | [] => Some s
  | x :: xs' => s' ← body x s; forEach body xs' s'
  end.

(** [for (j = i + 1; j < size; ++j)]. *)
Definition innerLoop (n i : nat) (bs : list Ball) : option (list Ball) :=
  forEach (collideAt i) (seq (S i) (n - S i)) bs.

(** [for (i = 0; i < size; ++i)]. *)
Definition ballPass (bs : list Ball) : option (list Ball) :=
  forEach (innerLoop (length bs)) (seq 0 (length bs)) bs.

(** The index pairs in the order the two loops visit them, and whether the
    inner branch ([vrel < 0.f] under the outer test) is taken for a pair. *)
Definition indexPairs (n : nat) : list (nat * nat) :=
  i ← seq 0 n; pair i <$> seq (S i) (n - S i).

Definition normal (A B : Ball) : Vec2 := vdiv (centerDelta A B) (dist A B).
Definition vrel (A B : Ball) : F :=
  dot (vsub (velocity A) (velocity B)) (normal A B).
Definition resolves (A B : Ball) : bool :=
  inContact A B && (vrel A B <? lit 0 1).

(** One physics update of a frame, and its split into the integration and
    the two constraint passes. *)
Definition tick (bd : FloatRect) (dt : F) (bs : list Ball)
    : option (list Ball) :=
  ballPass (moveAndWall bd dt <$> bs).

Definition resolveAll (bd : FloatRect) (bs : list Ball)
    : option (list Ball) :=
  ballPass (wallPass bd bs).

(** *** Events (lines 70-107) *)

(** The events the loop reacts to, and one constructor for all the others;
    the mouse positions are already mapped to world coordinates by
    [mapPixelToCoords]. *)
Inductive Event :=
  | Closed
  | SpacePressed
  | LeftPressed (m : Vec2)
  | LeftReleased (m : Vec2)
  | OtherEvent.

(** [balls[i]] as an lvalue, for an [int] index; an index outside the vector
    leaves it as it is. *)
Definition updateAt (i : Z) (f : Ball -> Ball) (bs : list Ball) : list Ball :=
  if (0 <=? i)%Z then alter f (Z.to_nat i) bs else bs.

Definition clearVelocities (w : World) : World :=
  mkWorld (setVelocity vzero <$> balls w) false
          (dragIndex w) (dragStart w).

(** The test of the press loop: [hypot(m - position) <= radius]. *)
Definition picks (m : Vec2) (b : Ball) : bool :=
  fhypot (vx m ⊖ vx (position b)) (vy m ⊖ vy (position b)) <=? radius b.

Definition grab (m : Vec2) (i : nat) (w : World) : World :=
  mkWorld (updateAt (Z.of_nat i) (setVelocity vzero) (balls w))
          true (Z.of_nat i) m.

(** The press loop from index [i] on, with [k] iterations left. *)
Fixpoint pressLoop (m : Vec2) (k i : nat) (w : World) : World :=
  match k with
  | O => w
  | Datatypes.S k' =>
      match balls w !! i with
      | Some b => if picks m b then grab m i w else pressLoop m k' (S i) w
      | None => w
      end
  end.

Definition startDrag (m : Vec2) (w : World) : World :=
  pressLoop m (length (balls w)) 0 w.

Definition endDrag (m : Vec2) (w : World) : World :=
  if dragging w then
    mkWorld
      (updateAt (dragIndex w)
         (setVelocity (vscale (vsub m (dragStart w)) throwScale)) (balls w))
      false (dragIndex w) (dragStart w)
  else w.

Definition handleEvent (w : World) (e : Event) : World :=
  match e with
  | Closed => w
  | SpacePressed => clearVelocities w
  | LeftPressed m => startDrag m w
  | LeftReleased m => endDrag m w
  | OtherEvent => w
  end.

(** One iteration of the main loop: the pending events, then the update. *)
Definition frame (bd : FloatRect) (events : list Event) (dt : F) (w : World)
    : option World :=
  let w1 := foldl handleEvent w events in
  bs ← tick bd dt (balls w1);
  Some (mkWorld bs (dragging w1) (dragIndex w1) (dragStart w1)).

(** The state at start-up, for a given placement of the ten balls. *)
Definition initWorld (places : list Vec2) : World :=
  mkWorld ((fun p => mkBall p vzero (lit 15 1)) <$> places) false (-1) vzero.

(** *** Predicates of the statements *)

(** No edge of [b] is beyond a wall. *)
Definition uncrossed (bd : FloatRect) (b : Ball) : Prop :=
  crossedLeft bd (position b) b = false /\
  crossedRight bd (position b) b = false /\
  crossedTop bd (position b) b = false /\
  crossedBottom bd (position b) b = false.

(** [b] is beyond a wall on the x axis and beyond a wall on the y axis. *)
Definition crossedBothAxes (bd : FloatRect) (b : Ball) : bool :=
  (crossedLeft bd (position b) b || crossedRight bd (position b) b) &&
  (crossedTop bd (position b) b || crossedBottom bd (position b) b).

(** The disc of [b] lies inside the container. *)
Definition contained (bd : FloatRect) (b : Ball) : bool :=
  (left bd <=? vx (position b) ⊖ radius b) &&
  (vx (position b) ⊕ radius b <=? left bd ⊕ width bd) &&
  (top bd <=? vy (position b) ⊖ radius b) &&
  (vy (position b) ⊕ radius b <=? top bd ⊕ height bd).

(** [b] at index [i] is the first ball of [w] that the pointer [m] picks. *)
Definition firstPicked (m : Vec2) (w : World) (i : nat) (b : Ball) : Prop :=
  balls w !! i = Some b /\ picks m b = true /\
  forall i' b', (i' < i)%nat -> balls w !! i' = Some b' -> picks m b' = false.

(** During a session [dragIndex] is an index of the vector. *)
Definition dragValid (w : World) : Prop :=
  dragging w = true ->
  (0 <= dragIndex w < Z.of_nat (length (balls w)))%Z.

(** The pairs for which the inner branch is taken while the pairs [ps] are
    processed from the vector [bs], and the balls that belong to none. *)
Definition resolvesAt (i j : nat) (bs : list Ball) : bool :=
  match bs !! i, bs !! j with
  | Some A, Some B => resolves A B
  | _, _ => false
  end.

Fixpoint handledPairs (ps : list (nat * nat)) (bs : list Ball)
    : list (nat * nat) :=
  match ps with
  | [] => []
  | ij :: ps' =>
      (if resolvesAt ij.1 ij.2 bs then [ij] else []) ++
      match collideAt ij.1 ij.2 bs with
      | Some bs' => handledPairs ps' bs'
      | None => []
      end
  end.

Definition untouched (k : nat) (bs : list Ball) : Prop :=
  forall i j, (i, j) ∈ handledPairs (indexPairs (length bs)) bs ->
              k <> i /\ k <> j.

(** [A'] and [B'] are at the contact distance of [A] and [B], up to [eps]:
    [minD - eps <= dist' <= minD + eps], as two tests of the arithmetic. *)
Definition separated (eps : F) (A B A' B' : Ball) : bool :=
  (minD A B ⊖ eps <=? dist A' B') && (dist A' B' <=? minD A B ⊕ eps).
End Simulation.

Arguments Vec2 F : clear implicits.
Arguments Ball F : clear implicits.
Arguments FloatRect F : clear implicits.
Arguments World F : clear implicits.
Arguments Event F : clear implicits.

(** ** The main loop and measures of a state *)
Section MainLoop.
Context {F : Type} `{Scalar F}.
Local Open Scope scalar_scope.

Definition isClosed (e : Event F) : bool :=
  match e with Closed => true | _ => false end.

(** [while (window.isOpen())]: one frame per entry, each with the events
    polled in it and the [dt] of its clock.  [window.close()] lets the frame
    finish; no frame follows it. *)
Fixpoint runFrames (bd : FloatRect F) (frames : list (list (Event F) * F))
    (w : World F) : option (World F) :=
  match frames with
  | [] => Some w
  | (events, dt) :: rest =>
      w' ← frame bd events dt w;
      if existsb isClosed events then Some w' else runFrames bd rest w'
  end.

(** The sampling ranges of the start-up placement: [ux] and [uy]. *)
Definition inPlacementRange (bd : FloatRect F) (p : Vec2 F) : Prop :=
  (left bd ⊕ lit 20 1 <=? vx p) = true /\
  (vx p <=? left bd ⊕ width bd ⊖ lit 20 1) = true /\
  (top bd ⊕ lit 20 1 <=? vy p) = true /\
  (vy p <=? top bd ⊕ height bd ⊖ lit 20 1) = true.
End MainLoop.

(** * The menu of [mainFile.cpp] and of the single-file program

    [main] shows the menu, reads a choice from [std::cin] and runs the chosen
    simulation, until the choice is 5 or a read fails.  A run of the program
    is a function of the results of its reads: [Some c] for an integer, [None]
    for a failed read (also at the end of the input). *)
Module Menu.

Inductive Sim := Orbit | Projectile | Collision | Viscosity.

Inductive Action :=
  | ShowMenu
  | Run (s : Sim)
  | SayInvalid
  | SayExit.

(** [main] of [mainFile.cpp]: the [switch] calls the simulation itself. *)
Fixpoint main (reads : list (option Z)) : list Action :=
  match reads with
  | [] => [ShowMenu]
  | None :: _ => [ShowMenu]
  | Some choice :: rest =>
      ShowMenu ::
      match choice with
      | 1 => Run Orbit :: main rest
      | 2 => Run Projectile :: main rest
      | 3 => Run Collision :: main rest
      | 4 => Run Viscosity :: main rest
      | 5 => [SayExit]
      | _ => SayInvalid :: main rest
      end%Z
  end.

(** [main] of the single-file program: the [switch] stores the simulation in
    [sim], [default] continues the loop, and [sim->run()] follows the
    [switch]. *)
Fixpoint mainClasses (sim : option Sim) (reads : list (option Z))
    : list Action :=
  match reads with
  | [] => [ShowMenu]
  | None :: _ => [ShowMenu]
  | Some choice :: rest =>
      ShowMenu ::
      match choice with
      | 5 => [SayExit]
      | _ =>
          let chosen :=
            match choice with
            | 1 => Some Orbit
            | 2 => Some Projectile
            | 3 => Some Collision
            | 4 => Some Viscosity
            | _ => None
            end%Z in
          match chosen with
          | Some s => Run s :: mainClasses (Some s) rest
          | None => SayInvalid :: mainClasses sim rest
          end
      end%Z
  end.

(** The simulation of a menu entry, and the simulation an action runs. *)
Definition simOf (choice : Z) : option Sim :=
  match choice with
  | 1 => Some Orbit
  | 2 => Some Projectile
  | 3 => Some Collision
  | 4 => Some Viscosity
  | _ => None
  end%Z.

Definition ran (a : Action) : option Sim :=
  match a with Run s => Some s | _ => None end.
End Menu.

(** * The viscosity simulation ([runViscositySimulation])

    Five balls fall in five containers of different viscosity.  The window
    size (the desktop mode) is a parameter; the wave drawn in each container
    ([makeWave]) and the labels are rendering and are left out, the phases the
    wave reads are kept. *)
Module Viscosity.
Section Model.
Context {F : Type} `{Scalar F}.
Local Open Scope scalar_scope.

Definition PROJECTILE_GRAVITY : F := lit 500 1.
Definition COUNT : nat := 5.
Definition viscosityValues : list F :=
  [lit 5 1; lit 8 1; lit 15 1; lit 50 1; lit 30 1].

(** [PhysicsCircle]: the shape is its position; its radius is [10.f]. *)
Record PhysicsCircle := mkCircle {
  position : Vec2 F;
  velocity : Vec2 F;
  settled : bool
}.

Definition radius : F := lit 10 1.

Definition bottom (c : PhysicsCircle) : F := vy (position c) ⊕ radius.

Definition setBottom (y : F) (c : PhysicsCircle) : PhysicsCircle :=
  mkCircle (mkVec2 (vx (position c)) (y ⊖ radius)) (velocity c) (settled c).

(** A container: position and size of its [sf::RectangleShape]. *)
Record Container := mkContainer { contPos : Vec2 F; contSize : Vec2 F }.

Record World := mkWorld {
  containers : list Container;
  balls : list PhysicsCircle;
  phases : list F;
  isRunning : bool
}.

(** Where a ball starts in its container (set-up and the R key). *)
Definition startPosition (cont : Container) : Vec2 F :=
  mkVec2 (vx (contPos cont) ⊕ vx (contSize cont) ⊘ lit 2 1)
         (vy (contPos cont) ⊕ vy (contSize cont) ⊘ lit 2 1 ⊖ lit 10 1).

(** The set-up for a window of size [winW] x [winH]. *)
Definition width : F := lit 150 1.
Definition height : F := lit 400 1.
Definition spacing : F := lit 100 1.
Definition gh : F := lit 350 1.

Definition startX (winW : F) : F :=
  (winW ⊖ (lit 5 1 ⊗ width ⊕ lit 4 1 ⊗ spacing)) ⊘ lit 2 1.
Definition topY (winH : F) : F := winH ⊖ gh ⊖ height.

Definition container (winW winH : F) (i : nat) : Container :=
  mkContainer
    (mkVec2 (startX winW ⊕ lit (Z.of_nat i) 1 ⊗ (width ⊕ spacing)) (topY winH))
    (mkVec2 width height).

Definition init (winW winH : F) : World :=
  mkWorld (container winW winH <$> seq 0 COUNT)
          ((fun i => mkCircle (startPosition (container winW winH i))
                              vzero false) <$> seq 0 COUNT)
          (replicate COUNT (lit 0 1))
          false.

(** The events the loop reacts to. *)
Inductive Event := Closed | SpaceKey | RKey | OtherEvent.

(** The R key: one iteration of its loop, on index [i]. *)
Definition resetAt (i : nat) (w : World) : option World :=
  cont ← containers w !! i;
  _ ← balls w !! i;
  Some (mkWorld (containers w)
                (<[i := mkCircle (startPosition cont) vzero false]> (balls w))
                (phases w) (isRunning w)).

Definition handleEvent (e : Event) (w : World) : option World :=
  match e with
  | Closed => Some w
  | SpaceKey => Some (mkWorld (containers w) (balls w) (phases w) true)
  | RKey =>
      forEach resetAt (seq 0 COUNT)
        (mkWorld (containers w) (balls w) (phases w) false)
  | OtherEvent => Some w
  end.

(** The body of [if (!balls[i].settled)] for one ball. *)
Definition fall (eta : F) (cont : Container) (dt : F) (c : PhysicsCircle)
    : PhysicsCircle :=
  let a := PROJECTILE_GRAVITY ⊖ eta ⊗ vy (velocity c) in
  let vy1 := vy (velocity c) ⊕ a ⊗ dt in
  let c1 :=
    mkCircle (mkVec2 (vx (position c) ⊕ lit 0 1) (vy (position c) ⊕ vy1 ⊗ dt))
             (mkVec2 (vx (velocity c)) vy1) (settled c) in
  let bottomY := vy (contPos cont) ⊕ vy (contSize cont) ⊖ radius in
  if bottomY <=? bottom c1 then
    mkCircle (position (setBottom bottomY c1)) vzero true
  else c1.

Definition stepBall (eta : F) (cont : Container) (dt : F) (c : PhysicsCircle)
    : PhysicsCircle :=
  if settled c then c else fall eta cont dt c.

(** One iteration of the update loop, on index [i]. *)
Definition updateAt (dt : F) (i : nat) (w : World) : option World :=
  c ← balls w !! i;
  cont ← containers w !! i;
  eta ← viscosityValues !! i;
  ph ← phases w !! i;
  Some (mkWorld (containers w)
                (<[i := stepBall eta cont dt c]> (balls w))
                (<[i := ph ⊕ dt ⊗ lit 2 1]> (phases w))
                (isRunning w)).

Definition update (dt : F) (w : World) : option World :=
  if isRunning w then forEach (updateAt dt) (seq 0 COUNT) w else Some w.

(** One iteration of the main loop: [dt], the events, the update. *)
Definition frame (events : list Event) (dt : F) (w : World) : option World :=
  w1 ← forEach handleEvent events w;
  update dt w1.

Definition isClosed (e : Event) : bool :=
  match e with Closed => true | _ => false end.

(** [while (window.isOpen())]: no frame follows the one that closes. *)
Fixpoint runFrames (frames : list (list Event * F)) (w : World)
    : option World :=
  match frames with
  | [] => Some w
  | (events, dt) :: rest =>
      w' ← frame events dt w;
      if existsb isClosed events then Some w' else runFrames rest w'
  end.

(** The vectors all have [COUNT] entries. *)
Definition wellFormed (w : World) : Prop :=
  length (containers w) = COUNT /\ length (balls w) = COUNT /\
  length (phases w) = COUNT.

(** What every loop over the indices keeps: the containers, the sizes. *)
Definition sameShape (w0 w : World) : Prop :=
  containers w = containers w0 /\ wellFormed w.
End Model.

Arguments PhysicsCircle F : clear implicits.
Arguments Container F : clear implicits.
Arguments World F : clear implicits.
End Viscosity.

(** * The projectile simulation ([runProjectileSimulation])

    The flags, the ball and the measures of a throw.  The trajectory preview,
    the rotation of the cannon, the angle shown in the results ([atan2]) and
    the result text are outputs only and are left out.  The readings of
    [pauseClock] and [resultClock] are inputs of a frame. *)
Module Projectile.
Section Model.
Context {F : Type} `{Scalar F}.
Local Open Scope scalar_scope.

Definition PROJECTILE_GRAVITY : F := lit 500 1.
Definition windowHeight : F := lit 600 1.
Definition groundH : F := lit 4 1.
Definition ballR : F := lit 8 1.
Definition peakPauseDur : F := lit 2 1.

(** [cannonPos{ 50.f, windowSize.y - groundH - 10.f }]. *)
Definition cannonPos : Vec2 F :=
  mkVec2 (lit 50 1) (windowHeight ⊖ groundH ⊖ lit 10 1).

Record State := mkState {
  aiming : bool;
  launched : bool;
  peakPause : bool;
  landed : bool;
  ballPos : Vec2 F;
  velocity : Vec2 F;
  prevVy : F;
  maxHeight : F;
  range : F;
  maxVel : F
}.

Definition init : State :=
  mkState false false false false cannonPos vzero
          (lit 0 1) (lit 0 1) (lit 0 1) (lit 0 1).

Inductive Event :=
  | Closed
  | LeftPressed
  | LeftReleased (mp : Vec2 F)
  | OtherEvent.

(** [std::min(a, b)]: [b] when [b < a], else [a]. *)
Definition fmin (a b : F) : F := if b <? a then b else a.

(** The press: begin aiming, unless a ball is in flight. *)
Definition press (s : State) : State :=
  if negb (launched s) then
    mkState true false (peakPause s) false cannonPos (velocity s)
            (prevVy s) (maxHeight s) (range s) (maxVel s)
  else s.

(** The release: launch, when aiming. *)
Definition release (mp : Vec2 F) (s : State) : State :=
  if aiming s then
    let dir := vsub mp cannonPos in
    let len := fhypot (vx dir) (vy dir) in
    if lit 0 1 <? len then
      let dir1 := vdiv dir len in
      let speed := fmin (len ⊗ lit 4 1) (lit 1000 1) in
      mkState false true (peakPause s) (landed s)
              (vadd cannonPos (vscale dir1 (lit 50 1)))
              (vscale dir1 speed)
              (prevVy s) (maxHeight s) (range s) speed
    else
      mkState false true (peakPause s) (landed s) (ballPos s) (velocity s)
              (prevVy s) (maxHeight s) (range s) (maxVel s)
  else s.

Definition handleEvent (s : State) (e : Event) : State :=
  match e with
  | Closed => s
  | LeftPressed => press s
  | LeftReleased mp => release mp s
  | OtherEvent => s
  end.

(** [// Update physics]: the flight, the detection of the peak, the pause. *)
Definition physics (dt pauseElapsed : F) (s : State) : State :=
  if launched s && negb (peakPause s) && negb (landed s) then
    let vy1 := vy (velocity s) ⊕ PROJECTILE_GRAVITY ⊗ dt in
    let v1 := mkVec2 (vx (velocity s)) vy1 in
    let pos1 := vadd (ballPos s) (vscale v1 dt) in
    if (lit 0 1 <=? vy1) && (prevVy s <? lit 0 1) then
      mkState (aiming s) (launched s) true (landed s) pos1
              (mkVec2 (vx v1) (lit 0 1)) (lit 0 1)
              (vy cannonPos ⊖ vy pos1) (range s) (maxVel s)
    else
      mkState (aiming s) (launched s) (peakPause s) (landed s) pos1 v1 vy1
              (maxHeight s) (range s) (maxVel s)
  else if peakPause s then
    if peakPauseDur <=? pauseElapsed then
      mkState (aiming s) (launched s) false (landed s) (ballPos s)
              (velocity s) (prevVy s) (maxHeight s) (range s) (maxVel s)
    else s
  else s.

(** [// Detect landing]. *)
Definition landing (s : State) : State :=
  if launched s && negb (landed s) && negb (peakPause s) then
    if windowHeight ⊖ ballR <=? vy (ballPos s) then
      mkState (aiming s) (launched s) (peakPause s) true
              (mkVec2 (vx (ballPos s)) (windowHeight ⊖ ballR))
              (velocity s) (prevVy s) (maxHeight s)
              (vx (ballPos s) ⊖ vx cannonPos) (maxVel s)
    else s
  else s.

(** [// Hide results ... and allow rethrow]. *)
Definition rearm (resultElapsed : F) (s : State) : State :=
  if landed s && (lit 4 1 <=? resultElapsed) then
    mkState (aiming s) false (peakPause s) false cannonPos (velocity s)
            (prevVy s) (maxHeight s) (range s) (maxVel s)
  else s.

(** One iteration of the main loop. *)
Definition frame (events : list Event) (dt pauseElapsed resultElapsed : F)
    (s : State) : State :=
  rearm resultElapsed
    (landing (physics dt pauseElapsed (foldl handleEvent s events))).

Definition isClosed (e : Event) : bool :=
  match e with Closed => true | _ => false end.

(** [while (window.isOpen())]: a frame is its events, its [dt] and the two
    clock readings; no frame follows the one that closes. *)
Fixpoint runFrames (frames : list (list Event * (F * F * F))) (s : State)
    : State :=
  match frames with
  | [] => s
  | (events, (dt, pauseElapsed, resultElapsed)) :: rest =>
      let s' := frame events dt pauseElapsed resultElapsed s in
      if existsb isClosed events then s' else runFrames rest s'
  end.

(** The relation between the flags that every frame keeps. *)
Definition flagsOk (s : State) : Prop :=
  (aiming s = true -> launched s = false) /\
  (peakPause s = true -> launched s = true /\ landed s = false) /\
  (landed s = true -> launched s = true).

(** A landed ball lies on the ground line, its range measured from the
    cannon. *)
Definition grounded (s : State) : Prop :=
  landed s = true ->
  vy (ballPos s) = windowHeight ⊖ ballR /\
  range s = vx (ballPos s) ⊖ vx cannonPos.
End Model.

Arguments State F : clear implicits.
Arguments Event F : clear implicits.
End Projectile.

(** * The orbit simulation of [solarSystem.cpp]

    The angle and the trail of a planet, and the zoom of the view.  [std::cos]
    and [std::sin] are parameters; stars, textures and sprites are rendering
    and are left out. *)
Module Orbit.
Section Model.
Context {F : Type} `{Scalar F}.
Variables fcos fsin : F -> F.
Local Open Scope scalar_scope.

(** [PI = 3.14159265358979323846f]: the [float] nearest to that decimal,
    which is [13176795 / 2^22]. *)
Definition PI : F := lit 13176795 4194304.
Definition TIME_SCALE : F := lit 9999999 1.

(** [Planet], without its name, drawing radius and colour. *)
Record Planet := mkPlanet {
  orbitRadius : F;
  orbitPeriod : F;
  currentOrbitAngle : F;
  trail : list (Vec2 F)
}.

(** [trail.erase(trail.begin())]. *)
Definition eraseFirst (t : list (Vec2 F)) : list (Vec2 F) := drop 1 t.

Definition update (elapsedSeconds : F) (p : Planet) : Planet :=
  let orbitAngularSpeed :=
    lit 2 1 ⊗ PI ⊘ (orbitPeriod p ⊗ lit 86400 1 ⊘ TIME_SCALE) in
  let angle1 := currentOrbitAngle p ⊕ orbitAngularSpeed ⊗ elapsedSeconds in
  let angle2 :=
    if lit 2 1 ⊗ PI <? angle1 then angle1 ⊖ lit 2 1 ⊗ PI else angle1 in
  mkPlanet (orbitRadius p) (orbitPeriod p) angle2
           (if (80 <? length (trail p))%nat then eraseFirst (trail p)
            else trail p).





(** The mouse wheel: [zoom] after a scroll of [delta]. *)
Definition scroll (delta zoom : F) : F :=
  let z1 := if lit 0 1 <? delta then zoom ⊗ lit 11 10 else zoom ⊘ lit 11 10 in
  let z2 := if z1 <? lit 1 10 then lit 1 10 else z1 in
  if lit 10 1 <? z2 then lit 10 1 else z2.
End Model.

Arguments Planet F : clear implicits.
End Orbit.

(** ** Sample states *)

(** Vectors and balls of radius [15.f] with coordinates [x/den], [y/den]. *)
Definition vecAt {F : Type} `{Scalar F} (den : positive) (x y : Z) : Vec2 F :=
  mkVec2 (lit x den) (lit y den).

Definition ballAt {F : Type} `{Scalar F} (den : positive) (x y vx vy : Z)
    : Ball F :=
  mkBall (vecAt den x y) (vecAt den vx vy) (lit 15 1).

(** ** Sample runs *)

(** The runs below are stated once and read in binary32 and in exact
    arithmetic; all their coordinates are binary fractions. *)
Section Runs.
Context {F : Type} `{Scalar F}.
Local Open Scope scalar_scope.

(** A ball at (60, 60) with velocity (-10, -10) is beyond the left and the
    top wall of the container (50, 50, 700, 500).  The four tests leave it at
    (60, 65) with velocity (8, 8): its left edge is still at 45. *)
Definition cornerRun : Prop :=
  let b : Ball F := ballAt 1 60 60 (-10) (-10) in
  crossedLeft bounds (position b) b = true /\
  crossedTop bounds (position b) b = true /\
  wallCollide bounds b = ballAt 1 60 65 8 8 /\
  contained bounds (wallCollide bounds b) = false.

(** Ball 0 rests against the left wall, ball 1 overlaps it and moves away:
    both are inside the container, and [resolveAll] returns ball 0 at
    x = 60, with its left edge at 45. *)
Definition wallContainmentRun : Prop :=
  let b0 : Ball F := ballAt 1 65 100 0 0 in
  let b1 : Ball F := ballAt 1 85 100 10 0 in
  let b0' : Ball F := ballAt 1 60 100 9 0 in
  contained bounds b0 = true /\ contained bounds b1 = true /\
  resolveAll bounds [b0; b1] = Some [b0'; ballAt 1 90 100 1 0] /\
  contained bounds b0' = false.


(** A press at (100, 100) grabs ball 0, at rest there; ball 1 overlaps it
    and moves away.  The update of a frame with dt = 1/4 leaves the grabbed
    ball at (96.25, 100) with velocity (9, 0), the session still open. *)
Definition grabbedPinningRun : Prop :=
  let p : Vec2 F := vecAt 1 100 100 in
  let w : World F :=
    mkWorld [ballAt 1 100 100 0 0; ballAt 1 120 100 10 0] false (-1) vzero in
  startDrag p w =
    mkWorld [ballAt 1 100 100 0 0; ballAt 1 120 100 10 0] true 0 p /\
  frame bounds [] (lit 1 4) (startDrag p w) =
    Some (mkWorld [ballAt 4 385 400 36 0; ballAt 4 505 400 4 0] true 0 p).
(** A sweep of pairs for the tolerance of the resolution: [n] pairs from a
    linear congruential sequence, ball [A] anywhere in the container and at
    rest, ball [B] within 21 of it on each axis and moving away from it. *)
Definition nextSeed (x : Z) : Z := (1103515245 * x + 12345) mod 2147483648.

Fixpoint samplePairs (n : nat) (seed : Z) : list (Ball F * Ball F) :=
  match n with
  | O => []
  | S n' =>
      let s1 := nextSeed seed in
      let s2 := nextSeed s1 in
      let s3 := nextSeed s2 in
      let s4 := nextSeed s3 in
      let ax := (650000 + (s1 / 8) mod 6700000)%Z in
      let ay := (650000 + (s2 / 8) mod 4700000)%Z in
      let dx := ((s3 / 8) mod 420001 - 210000)%Z in
      let dy := ((s4 / 8) mod 420001 - 210000)%Z in
      (mkBall (vecAt 10000 ax ay) vzero (lit 15 1),
       mkBall (vecAt 10000 (ax + dx) (ay + dy)) (vecAt 10000 dx dy)
              (lit 15 1))
      :: samplePairs n' s4
  end.

Definition handledInside (AB : Ball F * Ball F) : bool :=
  contained bounds AB.1 && contained bounds AB.2 && resolves AB.1 AB.2.

Definition separatedAfter (AB : Ball F * Ball F) : bool :=
  match collide AB.1 AB.2 with
  | Some (A', B') => separated (lit 1 1000) AB.1 AB.2 A' B'
  | None => false
  end.
End Runs.

(** ** Laws that hold in any scalar arithmetic *)
Section Laws.
Context {F : Type} `{Scalar F}.
Local Open Scope scalar_scope.
Implicit Types (A B b : Ball F) (bs : list (Ball F)) (w : World F).
Implicit Types (p m : Vec2 F) (bd : FloatRect F).

(** *** Loops *)

Lemma forEach_app {I S} (body : I -> S -> option S) xs ys s :
  forEach body (xs ++ ys) s = forEach body xs s ≫= forEach body ys.
Proof.
  revert s. induction xs as [|x xs IH]; intros s; simpl; [done|].
  destruct (body x s) as [s'|]; simpl; [apply IH | done].
Qed.

Lemma forEach_fmap {I J S} (g : J -> I) (body : I -> S -> option S) ys s :
  forEach body (g <$> ys) s = forEach (fun j => body (g j)) ys s.
Proof.
  revert s. induction ys as [|y ys IH]; intros s; simpl; [done|].
  destruct (body (g y) s); simpl; [apply IH | done].
Qed.

Lemma forEach_nested {I J S} (body : I -> J -> S -> option S)
    (inner : I -> list J) xs s :
  forEach (fun i => forEach (body i) (inner i)) xs s =
  forEach (fun ij => body ij.1 ij.2)
          (i ← xs; pair i <$> inner i) s.
Proof.
  revert s. induction xs as [|x xs IH]; intros s; [done|].
  rewrite bind_cons, forEach_app, forEach_fmap. simpl.
  destruct (forEach (body x) (inner x) s); simpl; [apply IH | done].
Qed.

(** A loop whose body keeps an invariant and cannot fail under it ends
    in a state with the invariant. *)
Lemma forEach_inv {I S} (P : S -> Prop) (Q : I -> Prop)
    (body : I -> S -> option S) xs s :
  (forall x s, Q x -> P s -> exists s', body x s = Some s' /\ P s') ->
  Forall Q xs -> P s ->
  exists s', forEach body xs s = Some s' /\ P s'.
Proof.
  intros Hbody HQ. revert s.
  induction HQ as [|x xs Hx _ IH]; intros s Hs; simpl; [by exists s|].
  destruct (Hbody x s Hx Hs) as (s' & -> & Hs'). simpl. by apply IH.
Qed.

(** A loop whose body does nothing on [s] returns [s]. *)
Lemma forEach_fixed {I S} (body : I -> S -> option S) xs s :
  Forall (fun x => body x s = Some s) xs -> forEach body xs s = Some s.
Proof.
  induction 1 as [|x xs Hx _ IH]; simpl; [done|]. by rewrite Hx.
Qed.

(** The ball-ball pass is one loop over [indexPairs]. *)
Lemma ballPass_indexPairs bs :
  ballPass bs =
  forEach (fun ij => collideAt ij.1 ij.2) (indexPairs (length bs)) bs.
Proof. unfold ballPass, innerLoop, indexPairs. apply forEach_nested. Qed.

Lemma elem_of_indexPairs n i j :
  (i, j) ∈ indexPairs n <-> (i < j < n)%nat.
Proof.
  unfold indexPairs. rewrite list_elem_of_bind. split.
  - intros (i' & Hin & Hi'). apply list_elem_of_fmap in Hin as (j' & [= -> ->] & Hj').
    apply elem_of_seq in Hi', Hj'. lia.
  - intros Hij. exists i. split; [|apply elem_of_seq; lia].
    apply list_elem_of_fmap. exists j. split; [done|]. apply elem_of_seq. lia.
Qed.

Lemma NoDup_indexPairs n : NoDup (indexPairs n).
Proof.
  unfold indexPairs. apply NoDup_bind; [| |apply NoDup_seq].
  - intros i1 i2 [i j] _ _ H1 H2.
    apply list_elem_of_fmap in H1 as (? & [= -> _] & _).
    by apply list_elem_of_fmap in H2 as (? & [= -> _] & _).
  - intros i _. apply NoDup_fmap_2; [|apply NoDup_seq]. by intros ?? [= ->].
Qed.

Lemma indexPairs_ordered n :
  Forall (fun ij => (ij.1 < ij.2 < n)%nat) (indexPairs n).
Proof.
  apply Forall_forall. intros [i j] Hin. by apply elem_of_indexPairs.
Qed.


(** *** One pair *)

Lemma isZero_pos (s : F) : (lit 0 1 <? s) = true -> isZero s = false.
Proof. unfold isZero. by intros ->. Qed.

(** The division of [collide] is always by a positive [dist]: no pair
    makes it fail, and its result is the one the two tests select. *)
Lemma collide_eq A B :
  collide A B =
  Some (if resolves A B then bounce (normal A B) (vrel A B) A B else (A, B)).
Proof.
  unfold collide, resolves. destruct (inContact A B) eqn:Hc; [|done].
  unfold inContact in Hc. apply andb_prop in Hc as [_ Hpos].
  unfold checkedDiv. rewrite (isZero_pos _ Hpos). simpl.
  fold (normal A B). fold (vrel A B).
  by destruct (vrel A B <? lit 0 1).
Qed.

Lemma collide_radius A B A' B' :
  collide A B = Some (A', B') -> radius A' = radius A /\ radius B' = radius B.
Proof.
  rewrite collide_eq. destruct (resolves A B); intros [= <- <-]; done.
Qed.

Lemma collideAt_eq i j bs A B :
  bs !! i = Some A -> bs !! j = Some B ->
  collideAt i j bs =
  Some (if resolves A B
        then <[j := (bounce (normal A B) (vrel A B) A B).2]>
               (<[i := (bounce (normal A B) (vrel A B) A B).1]> bs)
        else bs).
Proof.
  intros Hi Hj. unfold collideAt. rewrite Hi, Hj. simpl.
  rewrite collide_eq. simpl. destruct (resolves A B); [done|]. simpl.
  by rewrite (list_insert_id _ i A), (list_insert_id _ j B).
Qed.

Lemma collideAt_total i j bs :
  (i < length bs)%nat -> (j < length bs)%nat ->
  exists bs', collideAt i j bs = Some bs' /\ length bs' = length bs.
Proof.
  intros Hi Hj.
  destruct (lookup_lt_is_Some_2 bs i Hi) as [A HA].
  destruct (lookup_lt_is_Some_2 bs j Hj) as [B HB].
  rewrite (collideAt_eq i j bs A B HA HB). eexists. split; [done|].
  destruct (resolves A B); [|done]. by rewrite !length_insert.
Qed.

(** A pair leaves every other ball as it is. *)
Lemma collideAt_other i j k bs bs' :
  collideAt i j bs = Some bs' -> k <> i -> k <> j -> bs' !! k = bs !! k.
Proof.
  unfold collideAt. intros Hc Hi Hj.
  destruct (bs !! i) as [A|]; [|done]. destruct (bs !! j) as [B|]; [|done].
  simpl in Hc. destruct (collide A B) as [AB|]; [|done].
  injection Hc as <-. by rewrite !list_lookup_insert_ne.
Qed.

(** *** The whole pass *)

(** The pass returns: no division by zero, no index out of range; and the
    vector keeps its size. *)
Lemma ballPass_total bs :
  exists bs', ballPass bs = Some bs' /\ length bs' = length bs.
Proof.
  rewrite ballPass_indexPairs.
  apply (forEach_inv (fun s => length s = length bs)
           (fun ij => (ij.1 < ij.2 < length bs)%nat));
    [|apply indexPairs_ordered|done].
  intros [i j] s Hij Hs. simpl in *.
  destruct (collideAt_total i j s) as (s' & ? & ?); [lia..|].
  exists s'. split; [done|congruence].
Qed.

(** A pass in which the inner branch is taken for no pair is the identity. *)
Lemma ballPass_fixed bs :
  (forall i j A B, (i < j)%nat -> bs !! i = Some A -> bs !! j = Some B ->
     resolves A B = false) ->
  ballPass bs = Some bs.
Proof.
  intros Hno. rewrite ballPass_indexPairs. apply forEach_fixed.
  apply Forall_forall. intros [i j] Hij%elem_of_indexPairs. simpl.
  destruct (lookup_lt_is_Some_2 bs i) as [A HA]; [lia|].
  destruct (lookup_lt_is_Some_2 bs j) as [B HB]; [lia|].
  rewrite (collideAt_eq i j bs A B HA HB).
  rewrite (Hno i j A B); [done|lia|done..].
Qed.

(** *** Walls *)

Lemma wallCollide_uncrossed bd b : uncrossed bd b -> wallCollide bd b = b.
Proof.
  intros (Hl & Hr & Ht & Hb). unfold wallCollide.
  unfold hitLeft. rewrite Hl. unfold hitRight. rewrite Hr.
  unfold hitTop. rewrite Ht. unfold hitBottom. by rewrite Hb.
Qed.

Lemma wallPass_uncrossed bd bs :
  Forall (uncrossed bd) bs -> wallPass bd bs = bs.
Proof.
  unfold wallPass. induction 1 as [|b bs Hb _ IH]; [done|].
  rewrite fmap_cons, IH. by rewrite wallCollide_uncrossed.
Qed.

Lemma tick_resolveAll bd (dt : F) bs :
  tick bd dt bs = resolveAll bd (integrate dt <$> bs).
Proof.
  unfold tick, resolveAll, wallPass. by rewrite <- list_fmap_compose.
Qed.


(** *** The claims that need no arithmetic law *)

(** C7 (idempotence of the no-collision state).  When no edge of any ball is
    beyond a wall and no pair of balls overlaps (the test [dist < minD] fails
    for every pair), the wall pass followed by the ball-ball pass returns the
    vector it was given: every position and velocity is unchanged. *)
Theorem resolveAll_no_collision bd bs :
  Forall (uncrossed bd) bs ->
  (forall i j A B, (i < j)%nat -> bs !! i = Some A -> bs !! j = Some B ->
     (dist A B <? minD A B) = false) ->
  resolveAll bd bs = Some bs.
Proof.
  intros Hwalls Hpairs. unfold resolveAll.
  rewrite (wallPass_uncrossed bd bs Hwalls). apply ballPass_fixed.
  intros i j A B Hij HA HB. unfold resolves, inContact.
  by rewrite (Hpairs i j A B Hij HA HB).
Qed.

(** C8 (coincident centers).  For two balls at distance [0] the pair's
    resolution divides by nothing and returns both balls as they are, also in
    the vector; and for all balls [collide] returns, so the ball-ball pass
    returns for every vector. *)
Theorem collide_coincident A B :
  (lit 0 1 <? lit 0 1) = false ->
  dist A B = lit 0 1 ->
  collide A B = Some (A, B) /\
  (forall i j bs, bs !! i = Some A -> bs !! j = Some B ->
     collideAt i j bs = Some bs) /\
  (forall A' B', is_Some (collide A' B')) /\
  (forall bs, is_Some (ballPass bs)).
Proof.
  intros Hirr Hd.
  assert (Hno : resolves A B = false).
  { unfold resolves, inContact. rewrite Hd, Hirr. by rewrite andb_false_r. }
  repeat split.
  - unfold collide, inContact. rewrite Hd, Hirr. by rewrite andb_false_r.
  - intros i j bs HA HB. by rewrite (collideAt_eq i j bs A B HA HB), Hno.
  - intros A' B'. rewrite collide_eq. by eexists.
  - intros bs. destruct (ballPass_total bs) as (bs' & -> & _). by eexists.
Qed.

(** C2 (body-body resolution policy).  The pass visits the index pairs
    [(i, j)] with [i < j < size], each once, in the order of the two loops.  A
    pair is handled exactly when [0 < dist < minD] and
    [vrel = (velA - velB) . n < 0] for [n = d / dist]: then, with
    [jimp = -(1 + e) * vrel / 2], [velA] becomes [velA + jimp * n], [velB]
    becomes [velB - jimp * n], [A] moves by [-n * (overlap / 2)] and [B] by
    [n * (overlap / 2)] for [overlap = minD - dist].  A pair for which
    [vrel < 0] fails, or [dist < minD] fails, is left as it is. *)
Theorem ballPass_policy bs i j A B :
  bs !! i = Some A -> bs !! j = Some B ->
  let d := vsub (position B) (position A) in
  let dist := fhypot (vx d) (vy d) in
  let minD := radius A ⊕ radius B in
  let n := mkVec2 (vx d ⊘ dist) (vy d ⊘ dist) in
  let vrel :=
    (vx (velocity A) ⊖ vx (velocity B)) ⊗ vx n ⊕
    (vy (velocity A) ⊖ vy (velocity B)) ⊗ vy n in
  let jimp := fneg (lit 1 1 ⊕ lit 8 10) ⊗ vrel ⊘ lit 2 1 in
  let half := (minD ⊖ dist) ⊗ lit 1 2 in
  let A' :=
    mkBall (mkVec2 (vx (position A) ⊕ fneg (vx n) ⊗ half)
                   (vy (position A) ⊕ fneg (vy n) ⊗ half))
           (mkVec2 (vx (velocity A) ⊕ vx n ⊗ jimp)
                   (vy (velocity A) ⊕ vy n ⊗ jimp))
           (radius A) in
  let B' :=
    mkBall (mkVec2 (vx (position B) ⊕ vx n ⊗ half)
                   (vy (position B) ⊕ vy n ⊗ half))
           (mkVec2 (vx (velocity B) ⊖ vx n ⊗ jimp)
                   (vy (velocity B) ⊖ vy n ⊗ jimp))
           (radius B) in
  ballPass bs =
    forEach (fun ij => collideAt ij.1 ij.2) (indexPairs (length bs)) bs /\
  NoDup (indexPairs (length bs)) /\
  (forall i' j', (i', j') ∈ indexPairs (length bs) <->
                 (i' < j' < length bs)%nat) /\
  collideAt i j bs =
    Some (if (lit 0 1 <? dist) && (dist <? minD) && (vrel <? lit 0 1)
          then <[j := B']> (<[i := A']> bs) else bs) /\
  ((vrel <? lit 0 1) = false \/ (dist <? minD) = false ->
   collideAt i j bs = Some bs).
Proof.
  intros HA HB d dist0 minD0 n vrel0 jimp half A' B'.
  assert (Hat : collideAt i j bs =
    Some (if (lit 0 1 <? dist0) && (dist0 <? minD0) && (vrel0 <? lit 0 1)
          then <[j := B']> (<[i := A']> bs) else bs)).
  { rewrite (collideAt_eq i j bs A B HA HB). unfold resolves, inContact.
    rewrite (andb_comm (lit 0 1 <? dist0)). reflexivity. }
  split; [apply ballPass_indexPairs|].
  split; [apply NoDup_indexPairs|].
  split; [intros; apply elem_of_indexPairs|].
  split; [exact Hat|].
  rewrite Hat. intros [-> | ->]; by rewrite ?andb_false_r.
Qed.


(** *** Drag and throw *)

Lemma updateAt_nat (i : nat) (f : Ball F -> Ball F) bs :
  updateAt (Z.of_nat i) f bs = alter f i bs.
Proof.
  unfold updateAt. rewrite Nat2Z.id.
  by destruct (Z.leb_spec 0 (Z.of_nat i)); [|lia].
Qed.

Lemma alter_insert (f : Ball F -> Ball F) i bs b :
  bs !! i = Some b -> alter f i bs = <[i := f b]> bs.
Proof.
  intros Hb. apply list_eq. intros k. destruct (decide (i = k)) as [<-|Hne].
  - rewrite list_lookup_alter_eq, Hb, list_lookup_insert_eq; [done|].
    by apply lookup_lt_is_Some_1.
  - by rewrite list_lookup_alter_ne, list_lookup_insert_ne.
Qed.

Lemma pressLoop_miss m k i w :
  (forall i' b, (i <= i')%nat -> balls w !! i' = Some b -> picks m b = false) ->
  pressLoop m k i w = w.
Proof.
  revert i. induction k as [|k IH]; intros i Hmiss; simpl; [done|].
  destruct (balls w !! i) as [b|] eqn:Hb; [|done].
  rewrite (Hmiss i b); [|lia|done]. apply IH.
  intros i' b' Hle. apply Hmiss. lia.
Qed.

Lemma pressLoop_hit m k i t w b :
  (i <= t < i + k)%nat -> balls w !! t = Some b -> picks m b = true ->
  (forall i' b', (i <= i' < t)%nat -> balls w !! i' = Some b' ->
     picks m b' = false) ->
  pressLoop m k i w = grab m t w.
Proof.
  revert i. induction k as [|k IH]; intros i Hit Hb Hpick Hbefore; [lia|].
  simpl. destruct (decide (i = t)) as [->|Hne].
  - by rewrite Hb, Hpick.
  - destruct (balls w !! i) as [b'|] eqn:Hb'.
    + rewrite (Hbefore i b'); [|lia|done].
      apply IH; [lia|done..|]. intros i' b'' Hle. apply Hbefore. lia.
    + apply lookup_ge_None in Hb'. apply lookup_lt_Some in Hb. lia.
Qed.

Lemma startDrag_hit m w i b :
  firstPicked m w i b ->
  startDrag m w =
  mkWorld (<[i := setVelocity vzero b]> (balls w)) true (Z.of_nat i) m.
Proof.
  intros (Hb & Hpick & Hbefore). unfold startDrag.
  rewrite (pressLoop_hit m _ 0 i w b); [|split; [lia|]|done..|].
  - unfold grab. by rewrite updateAt_nat, (alter_insert _ i _ b).
  - by apply lookup_lt_Some in Hb.
  - intros i' b' ?. apply Hbefore. lia.
Qed.

Lemma startDrag_miss m w :
  (forall i b, balls w !! i = Some b -> picks m b = false) ->
  startDrag m w = w.
Proof. intros Hmiss. apply pressLoop_miss. intros i' b _. apply Hmiss. Qed.

(** C5 (drag and throw).  A press at [p] that first picks ball [i] zeroes
    that ball's velocity and opens the session with index [i] and start [p];
    a press that picks no ball changes nothing.  A release at [q] during a
    session sets the velocity of the grabbed ball to [(q - dragStart) * 5] and
    closes the session, so after a grab at [p] the velocity is [(q - p) * 5];
    a release without a session changes nothing. *)
Theorem drag_throw_contract w p q :
  (forall i b, firstPicked p w i b ->
     startDrag p w =
       mkWorld (<[i := setVelocity vzero b]> (balls w)) true (Z.of_nat i) p /\
     endDrag q (startDrag p w) =
       mkWorld (<[i := setVelocity (vscale (vsub q p) (lit 5 1)) b]> (balls w))
               false (Z.of_nat i) p) /\
  ((forall i b, balls w !! i = Some b -> picks p b = false) ->
     startDrag p w = w) /\
  (forall i b, dragging w = true -> dragIndex w = Z.of_nat i ->
     balls w !! i = Some b ->
     endDrag q w =
       mkWorld (<[i := setVelocity (vscale (vsub q (dragStart w)) (lit 5 1)) b]>
                  (balls w))
               false (dragIndex w) (dragStart w)) /\
  (dragging w = false -> endDrag q w = w).
Proof.
  split; [|split; [apply startDrag_miss|split]].
  - intros i b Hfirst. split; [by apply startDrag_hit|].
    rewrite (startDrag_hit p w i b Hfirst). unfold endDrag. simpl.
    destruct Hfirst as (Hb & _). apply lookup_lt_Some in Hb.
    rewrite updateAt_nat, (alter_insert _ i _ (setVelocity vzero b)).
    + by rewrite list_insert_insert_eq.
    + by apply list_lookup_insert_eq.
  - intros i b Hdrag Hidx Hb. unfold endDrag. rewrite Hdrag, Hidx.
    by rewrite updateAt_nat, (alter_insert _ i _ b).
  - intros Hdrag. unfold endDrag. by rewrite Hdrag.
Qed.

(** C10 (frame of a press).  A press at [p] that first picks ball [i] leaves
    every position, every radius, the number of balls and every other ball
    as they are; ball [i] gets velocity zero and the drag slot becomes
    (open, [i], [p]).  A press that picks no ball returns the world as it
    is.  The container is a constant of the program, outside the world. *)
Theorem startDrag_frame w p :
  (forall i b, firstPicked p w i b ->
     position <$> balls (startDrag p w) = position <$> balls w /\
     radius <$> balls (startDrag p w) = radius <$> balls w /\
     length (balls (startDrag p w)) = length (balls w) /\
     (forall k, k <> i -> balls (startDrag p w) !! k = balls w !! k) /\
     velocity <$> balls (startDrag p w) !! i = Some vzero /\
     dragging (startDrag p w) = true /\
     dragIndex (startDrag p w) = Z.of_nat i /\
     dragStart (startDrag p w) = p) /\
  ((forall i b, balls w !! i = Some b -> picks p b = false) ->
     startDrag p w = w).
Proof.
  split; [|apply startDrag_miss].
  intros i b Hfirst. rewrite (startDrag_hit p w i b Hfirst). simpl.
  destruct Hfirst as (Hb & _). pose proof (lookup_lt_Some _ _ _ Hb) as Hlt.
  repeat split.
  - rewrite list_fmap_insert. apply list_insert_id.
    by rewrite list_lookup_fmap, Hb.
  - rewrite list_fmap_insert. apply list_insert_id.
    by rewrite list_lookup_fmap, Hb.
  - apply length_insert.
  - intros k Hk. by apply list_lookup_insert_ne.
  - by rewrite list_lookup_insert_eq.
Qed.


(** *** Balls outside every handled pair *)

Lemma collideAt_unresolved i j bs bs' :
  collideAt i j bs = Some bs' -> resolvesAt i j bs = false -> bs' = bs.
Proof.
  unfold resolvesAt. intros Hc Hno.
  destruct (bs !! i) as [A|] eqn:HA; [|by unfold collideAt in Hc; rewrite HA in Hc].
  destruct (bs !! j) as [B|] eqn:HB;
    [|by unfold collideAt in Hc; rewrite HA, HB in Hc].
  rewrite (collideAt_eq i j bs A B HA HB), Hno in Hc. by injection Hc.
Qed.

Lemma forEach_untouched k ps bs bs' :
  forEach (fun ij => collideAt ij.1 ij.2) ps bs = Some bs' ->
  (forall i j, (i, j) ∈ handledPairs ps bs -> k <> i /\ k <> j) ->
  bs' !! k = bs !! k.
Proof.
  revert bs. induction ps as [|[i j] ps IH]; intros bs Hrun Hk; simpl in *.
  { by injection Hrun as <-. }
  destruct (collideAt i j bs) as [bs1|] eqn:Hc; [|done]. simpl in Hrun.
  rewrite (IH bs1 Hrun).
  - destruct (resolvesAt i j bs) eqn:Hr.
    + destruct (Hk i j) as [Hi Hj]; [by left|].
      by apply (collideAt_other i j k bs bs1).
    + by rewrite (collideAt_unresolved i j bs bs1 Hc Hr).
  - intros i' j' Hin. apply Hk. apply elem_of_app. by right.
Qed.

(** The pass returns, and a ball outside every handled pair is as before. *)
Lemma ballPass_untouched k bs :
  untouched k bs ->
  exists bs', ballPass bs = Some bs' /\ bs' !! k = bs !! k.
Proof.
  intros Hk. destruct (ballPass_total bs) as (bs' & Hrun & _).
  exists bs'. split; [done|]. rewrite ballPass_indexPairs in Hrun.
  by apply (forEach_untouched k _ bs bs' Hrun).
Qed.

(** *** What the four wall tests do *)

(** A ball beyond the left wall only is put against it, its x velocity
    multiplied by [-restitution]; likewise for the three other walls. *)
Lemma wallCollide_left_only bd b :
  crossedLeft bd (position b) b = true ->
  crossedRight bd (position b) b = false ->
  crossedTop bd (position b) b = false ->
  crossedBottom bd (position b) b = false ->
  wallCollide bd b =
  mkBall (mkVec2 (left bd ⊕ radius b) (vy (position b)))
         (mkVec2 (vx (velocity b) ⊗ fneg restitution) (vy (velocity b)))
         (radius b).
Proof.
  intros Hl Hr Ht Hb. unfold wallCollide, hitLeft, hitRight, hitTop, hitBottom.
  unfold crossedLeft, crossedRight, crossedTop, crossedBottom in *.
  unfold scaleVelX, scaleVelY, setVelocity, setPosition. simpl.
  rewrite Hl. simpl. rewrite Hr. simpl. rewrite Ht. simpl. by rewrite Hb.
Qed.

Lemma wallCollide_right_only bd b :
  crossedLeft bd (position b) b = false ->
  crossedRight bd (position b) b = true ->
  crossedTop bd (position b) b = false ->
  crossedBottom bd (position b) b = false ->
  wallCollide bd b =
  mkBall (mkVec2 (left bd ⊕ width bd ⊖ radius b) (vy (position b)))
         (mkVec2 (vx (velocity b) ⊗ fneg restitution) (vy (velocity b)))
         (radius b).
Proof.
  intros Hl Hr Ht Hb. unfold wallCollide, hitLeft, hitRight, hitTop, hitBottom.
  unfold crossedLeft, crossedRight, crossedTop, crossedBottom in *.
  unfold scaleVelX, scaleVelY, setVelocity, setPosition. simpl.
  rewrite Hl. simpl. rewrite Hr. simpl. rewrite Ht. simpl. by rewrite Hb.
Qed.

Lemma wallCollide_top_only bd b :
  crossedLeft bd (position b) b = false ->
  crossedRight bd (position b) b = false ->
  crossedTop bd (position b) b = true ->
  crossedBottom bd (position b) b = false ->
  wallCollide bd b =
  mkBall (mkVec2 (vx (position b)) (top bd ⊕ radius b))
         (mkVec2 (vx (velocity b)) (vy (velocity b) ⊗ fneg restitution))
         (radius b).
Proof.
  intros Hl Hr Ht Hb. unfold wallCollide, hitLeft, hitRight, hitTop, hitBottom.
  unfold crossedLeft, crossedRight, crossedTop, crossedBottom in *.
  unfold scaleVelX, scaleVelY, setVelocity, setPosition. simpl.
  rewrite Hl. simpl. rewrite Hr. simpl. rewrite Ht. simpl. by rewrite Hb.
Qed.

Lemma wallCollide_bottom_only bd b :
  crossedLeft bd (position b) b = false ->
  crossedRight bd (position b) b = false ->
  crossedTop bd (position b) b = false ->
  crossedBottom bd (position b) b = true ->
  wallCollide bd b =
  mkBall (mkVec2 (vx (position b)) (top bd ⊕ height bd ⊖ radius b))
         (mkVec2 (vx (velocity b)) (vy (velocity b) ⊗ fneg restitution))
         (radius b).
Proof.
  intros Hl Hr Ht Hb. unfold wallCollide, hitLeft, hitRight, hitTop, hitBottom.
  unfold crossedLeft, crossedRight, crossedTop, crossedBottom in *.
  unfold scaleVelX, scaleVelY, setVelocity, setPosition. simpl.
  rewrite Hl. simpl. rewrite Hr. simpl. rewrite Ht. simpl. by rewrite Hb.
Qed.

Lemma hit_radius bd p b :
  radius (hitLeft bd p b) = radius b /\ radius (hitRight bd p b) = radius b /\
  radius (hitTop bd p b) = radius b /\ radius (hitBottom bd p b) = radius b.
Proof.
  unfold hitLeft, hitRight, hitTop, hitBottom.
  destruct (crossedLeft bd p b), (crossedRight bd p b), (crossedTop bd p b),
    (crossedBottom bd p b); done.
Qed.

Lemma wallCollide_radius bd b : radius (wallCollide bd b) = radius b.
Proof.
  unfold wallCollide.
  rewrite (proj2 (proj2 (proj2 (hit_radius _ _ _)))).
  rewrite (proj1 (proj2 (proj2 (hit_radius _ _ _)))).
  rewrite (proj1 (proj2 (hit_radius _ _ _))).
  apply hit_radius.
Qed.

(** The branches of the y walls write the x coordinate read before the four
    tests: a ball beyond a y wall keeps its x coordinate, also when an x
    wall has just put it elsewhere. *)
Lemma wallCollide_y_restores_x bd b :
  crossedTop bd (position b) b || crossedBottom bd (position b) b = true ->
  vx (position (wallCollide bd b)) = vx (position b).
Proof.
  intros Hy. unfold wallCollide.
  set (p := position b) in *. set (b2 := hitRight bd p (hitLeft bd p b)).
  assert (Hr2 : radius b2 = radius b).
  { unfold b2. rewrite (proj1 (proj2 (hit_radius _ _ _))). apply hit_radius. }
  unfold hitBottom.
  destruct (crossedBottom bd p (hitTop bd p b2)) eqn:Hbot; [done|].
  unfold hitTop in *. unfold crossedTop, crossedBottom in *.
  rewrite Hr2 in *. destruct (vy p ⊖ radius b <? top bd); [done|].
  simpl in Hy. rewrite Hr2 in Hbot. congruence.
Qed.

(** *** The drag index stays inside the vector *)

Lemma updateAt_length (i : Z) (f : Ball F -> Ball F) bs :
  length (updateAt i f bs) = length bs.
Proof. unfold updateAt. destruct (0 <=? i)%Z; [apply length_alter|done]. Qed.

Lemma pressLoop_cases m k i w :
  pressLoop m k i w = w \/
  exists t, (t < length (balls w))%nat /\ pressLoop m k i w = grab m t w.
Proof.
  revert i. induction k as [|k IH]; intros i; simpl; [by left|].
  destruct (balls w !! i) as [b|] eqn:Hb; [|by left].
  destruct (picks m b); [|apply IH].
  right. exists i. split; [by apply lookup_lt_Some in Hb|done].
Qed.

Lemma handleEvent_dragValid w e : dragValid w -> dragValid (handleEvent w e).
Proof.
  intros Hw. destruct e as [| |m|m|]; simpl; try done.
  - unfold startDrag.
    destruct (pressLoop_cases m (length (balls w)) 0 w) as [->|(t & Ht & ->)];
      [done|].
    intros _. simpl. rewrite updateAt_length. lia.
  - unfold endDrag. by destruct (dragging w).
Qed.

(** Every frame returns, keeps the number of balls, and keeps the drag index
    inside the vector: [balls[dragIndex]] of the release handler is always a
    ball. *)
Lemma frame_dragValid bd events (dt : F) w :
  dragValid w ->
  exists w', frame bd events dt w = Some w' /\ dragValid w' /\
    length (balls w') = length (balls (foldl handleEvent w events)).
Proof.
  intros Hw. unfold frame.
  assert (Hw1 : dragValid (foldl handleEvent w events)).
  { revert w Hw. induction events as [|e events IH]; intros w Hw; [done|].
    simpl. by apply IH, handleEvent_dragValid. }
  set (w1 := foldl handleEvent w events) in *. unfold tick.
  destruct (ballPass_total (moveAndWall bd dt <$> balls w1))
    as (bs' & -> & Hlen).
  rewrite length_fmap in Hlen. simpl. eexists. split; [done|]. split; [|done].
  intros Hdrag. simpl in *. rewrite Hlen. by apply Hw1.
Qed.

(** When the inner branch is taken for no pair, every ball is untouched. *)
Lemma handledPairs_none ps bs :
  Forall (fun ij => resolvesAt ij.1 ij.2 bs = false) ps ->
  handledPairs ps bs = [].
Proof.
  induction 1 as [|[i j] ps Hij _ IH]; simpl in *; [done|].
  rewrite Hij. simpl. destruct (collideAt i j bs) as [bs'|] eqn:Hc; [|done].
  by rewrite (collideAt_unresolved i j bs bs' Hc Hij).
Qed.

Lemma untouched_none k bs :
  (forall i j A B, (i < j)%nat -> bs !! i = Some A -> bs !! j = Some B ->
     resolves A B = false) ->
  untouched k bs.
Proof.
  intros Hno i j Hin. rewrite handledPairs_none in Hin.
  { by apply elem_of_nil in Hin. }
  apply Forall_forall. intros [i' j'] Hij%elem_of_indexPairs.
  unfold resolvesAt. simpl.
  destruct (bs !! i') as [A|] eqn:HA; [|done].
  destruct (bs !! j') as [B|] eqn:HB; [|done].
  apply (Hno i' j' A B); [lia|done..].
Qed.

(** The pass on two balls is the one pair. *)
Lemma ballPass_two A B : ballPass [A; B] = collideAt 0 1 [A; B].
Proof.
  rewrite ballPass_indexPairs. simpl. by destruct (collideAt 0 1 [A; B]).
Qed.

(** *** Radii and the number of balls never change *)

Lemma collideAt_radius i j bs bs' :
  collideAt i j bs = Some bs' -> radius <$> bs' = radius <$> bs.
Proof.
  unfold collideAt. intros Hc.
  destruct (bs !! i) as [A|] eqn:HA; [|done].
  destruct (bs !! j) as [B|] eqn:HB; [|done]. simpl in Hc.
  destruct (collide A B) as [[A' B']|] eqn:HAB; [|done].
  injection Hc as <-. simpl.
  destruct (collide_radius A B A' B' HAB) as [HrA HrB].
  rewrite !list_fmap_insert, HrA, HrB.
  rewrite (list_insert_id (radius <$> bs) i); [|by rewrite list_lookup_fmap, HA].
  apply list_insert_id. by rewrite list_lookup_fmap, HB.
Qed.

Lemma tick_radius bd (dt : F) bs :
  exists bs', tick bd dt bs = Some bs' /\ radius <$> bs' = radius <$> bs.
Proof.
  unfold tick. set (bs1 := moveAndWall bd dt <$> bs).
  assert (Hr1 : radius <$> bs1 = radius <$> bs).
  { unfold bs1. rewrite <- list_fmap_compose. apply list_fmap_ext.
    intros _ b _. simpl. unfold moveAndWall. by rewrite wallCollide_radius. }
  rewrite ballPass_indexPairs.
  destruct (forEach_inv
    (fun s => length s = length bs1 /\ radius <$> s = radius <$> bs)
    (fun ij => (ij.1 < ij.2 < length bs1)%nat)
    (fun ij => collideAt ij.1 ij.2) (indexPairs (length bs1)) bs1)
    as (bs' & Hrun & _ & Hr); [|apply indexPairs_ordered|done|by exists bs'].
  intros [i j] s Hij [Hlen Hr]. simpl in *.
  destruct (collideAt_total i j s) as (s' & Hc & Hlen'); [lia..|].
  exists s'. split; [done|]. split; [congruence|].
  by rewrite (collideAt_radius i j s s' Hc).
Qed.
(** C9 (pairwise conservation), as amended.  Whatever [collide] returns for a
    pair, the two changes are equal and opposite: a handled pair gets one
    impulse vector [P = jimp * n], added to the velocity of [A] and
    subtracted from that of [B], and one push vector [Q = n * (overlap *
    0.5f)], whose opposite is added to the position of [A] and which is
    added to the position of [B]; the radii are kept, and a pair that is
    not handled is returned as it is.  The only law of the arithmetic used
    is that the opposite of a factor gives the opposite product, which
    binary32 and the real numbers both have.  The four additions themselves
    round in binary32, each on its own. *)
Theorem collide_conserves A B A' B' :
  (forall a b : F, fneg a ⊗ b = fneg (a ⊗ b)) ->
  collide A B = Some (A', B') ->
  if resolves A B then
    exists P Q : Vec2 F,
      P = vscale (normal A B) (impulse (vrel A B)) /\
      Q = vscale (normal A B) ((minD A B ⊖ dist A B) ⊗ lit 1 2) /\
      velocity A' = vadd (velocity A) P /\
      velocity B' = vsub (velocity B) P /\
      position A' = vadd (position A) (vneg Q) /\
      position B' = vadd (position B) Q /\
      radius A' = radius A /\ radius B' = radius B
  else A' = A /\ B' = B.
Proof.
  intros Hopp. rewrite collide_eq.
  destruct (resolves A B); intros Hc; apply (inj Some) in Hc.
  - assert (HA : A' = (bounce (normal A B) (vrel A B) A B).1) by by rewrite Hc.
    assert (HB : B' = (bounce (normal A B) (vrel A B) A B).2) by by rewrite Hc.
    subst A' B'. clear Hc. eexists _, _.
    split; [reflexivity|]. split; [reflexivity|].
    unfold bounce. simpl. repeat split.
    unfold vscale, vneg. simpl. by rewrite !Hopp.
  - by inversion Hc.
Qed.
End Laws.

(** ** Laws of the exact arithmetic *)
Section ExactLaws.
Local Open Scope R_scope.
Implicit Types (A B b : Ball R) (bs : list (Ball R)) (bd : FloatRect R).

Lemma ltb_true (x y : R) : Exact.ltb x y = true <-> x < y.
Proof. unfold Exact.ltb. destruct (Rlt_dec x y); split; (done || lra). Qed.

Lemma ltb_false (x y : R) : Exact.ltb x y = false <-> y <= x.
Proof. unfold Exact.ltb. destruct (Rlt_dec x y); split; (done || lra). Qed.

Lemma leb_true (x y : R) : Exact.leb x y = true <-> x <= y.
Proof. unfold Exact.leb. destruct (Rle_dec x y); split; (done || lra). Qed.

Lemma leb_false (x y : R) : Exact.leb x y = false <-> y < x.
Proof. unfold Exact.leb. destruct (Rle_dec x y); split; (done || lra). Qed.

Lemma hypot_nonneg (x y : R) : 0 <= Exact.hypot x y.
Proof. apply sqrt_pos. Qed.


Lemma hypot_eq (x y h : R) : 0 <= h -> h * h = x * x + y * y -> Exact.hypot x y = h.
Proof. intros Hh Hsq. apply sqrt_lem_1; [nra|done|done]. Qed.


(** Reading the operations at the instance [exact]. *)
Ltac exact_ops :=
  cbn [lit fadd fsub fmul fdiv fneg flt fle fhypot exact] in *;
  unfold Exact.literal in *.

(** Equalities of balls, vectors of balls and worlds, field by field. *)
Ltac fields_eq :=
  repeat match goal with
         | |- Some _ = Some _ => f_equal
         | |- _ :: _ = _ :: _ => f_equal
         | |- mkWorld _ _ _ _ = mkWorld _ _ _ _ => f_equal
         | |- mkBall _ _ _ = mkBall _ _ _ => f_equal
         | |- mkVec2 _ _ = mkVec2 _ _ => f_equal
         end;
  try lra.

Lemma contained_exact bd b :
  contained bd b = true <->
  left bd <= vx (position b) - radius b /\
  vx (position b) + radius b <= left bd + width bd /\
  top bd <= vy (position b) - radius b /\
  vy (position b) + radius b <= top bd + height bd.
Proof.
  unfold contained. exact_ops. rewrite !andb_true_iff, !leb_true. tauto.
Qed.

(** A ball beyond the walls of at most one axis is inside after the four
    tests, in a container that is at least as wide and high as the ball. *)
Lemma wallCollide_contained bd b :
  2 * radius b <= width bd -> 2 * radius b <= height bd ->
  crossedBothAxes bd b = false ->
  contained bd (wallCollide bd b) = true.
Proof.
  intros Hw Hh Hone. apply contained_exact.
  destruct b as [[x y] v r], bd as [l t w h].
  unfold crossedBothAxes, wallCollide, hitLeft, hitRight, hitTop, hitBottom,
    crossedLeft, crossedRight, crossedTop, crossedBottom in *.
  exact_ops. simpl in *. unfold Exact.ltb in *.
  repeat destruct (Rlt_dec _ _); simpl in *; try discriminate; lra.
Qed.


(** C1 (wall containment), as amended.  After [resolveAll] a ball lies inside
    the container when it was beyond the walls of at most one axis and it
    belongs to no pair that the ball-ball pass handles, in a container at
    least as wide and as high as the ball.  (The ball-ball pass runs after
    the wall pass, and its push is not checked against the walls.) *)
Theorem resolveAll_contained bd bs k b :
  bs !! k = Some b ->
  2 * radius b <= width bd -> 2 * radius b <= height bd ->
  crossedBothAxes bd b = false ->
  untouched k (wallPass bd bs) ->
  exists bs' b',
    resolveAll bd bs = Some bs' /\ bs' !! k = Some b' /\
    left bd <= vx (position b') - radius b' /\
    vx (position b') + radius b' <= left bd + width bd /\
    top bd <= vy (position b') - radius b' /\
    vy (position b') + radius b' <= top bd + height bd.
Proof.
  intros Hb Hw Hh Hone Hk.
  destruct (ballPass_untouched k _ Hk) as (bs' & Hrun & Hsame).
  exists bs', (wallCollide bd b). split; [done|]. split.
  - rewrite Hsame. unfold wallPass. by rewrite list_lookup_fmap, Hb.
  - by apply contained_exact, wallCollide_contained.
Qed.

(** *** One handled pair, in exact arithmetic *)

Lemma resolves_exact A B :
  resolves A B = true <->
  0 < dist A B < minD A B /\ vrel A B < 0.
Proof.
  unfold resolves, inContact. exact_ops.
  rewrite !andb_true_iff, !ltb_true. lra.
Qed.


(** *** A ball at rest *)

Lemma integrate_still (dt : R) b : velocity b = vzero -> integrate dt b = b.
Proof.
  destruct b as [[x y] v r]. simpl. intros ->.
  unfold integrate, move, setPosition, vadd, vscale, vzero. simpl. exact_ops.
  do 2 f_equal; lra.
Qed.

Lemma tick_keeps_still bd (dt : R) bs k b :
  bs !! k = Some b -> velocity b = vzero -> uncrossed bd b ->
  untouched k (moveAndWall bd dt <$> bs) ->
  exists bs', tick bd dt bs = Some bs' /\ bs' !! k = Some b.
Proof.
  intros Hb Hv Hwalls Hk. unfold tick.
  destruct (ballPass_untouched k _ Hk) as (bs' & Hrun & Hsame).
  exists bs'. split; [done|]. rewrite Hsame, list_lookup_fmap, Hb. simpl.
  unfold moveAndWall. rewrite (integrate_still dt b Hv).
  by rewrite (wallCollide_uncrossed bd b Hwalls).
Qed.

(** C6 (the grabbed ball), as amended.  A press that picks ball [i] leaves it
    with velocity zero in an open session.  The update has no exemption for
    the grabbed ball; a frame without events leaves a ball of velocity zero
    as it is, and the session open, when no edge of the ball is beyond a
    wall and the ball belongs to no pair handled in that frame. *)
Theorem grabbed_ball_still bd (dt : R) (w : World R) (p : Vec2 R) i b :
  firstPicked p w i b ->
  balls (startDrag p w) !! i = Some (setVelocity vzero b) /\
  dragging (startDrag p w) = true /\
  dragIndex (startDrag p w) = Z.of_nat i /\
  forall (w2 : World R) b2,
    dragging w2 = true -> dragIndex w2 = Z.of_nat i ->
    balls w2 !! i = Some b2 -> velocity b2 = vzero -> uncrossed bd b2 ->
    untouched i (moveAndWall bd dt <$> balls w2) ->
    exists w3, frame bd [] dt w2 = Some w3 /\
      balls w3 !! i = Some b2 /\
      dragging w3 = true /\ dragIndex w3 = Z.of_nat i.
Proof.
  intros Hfirst. rewrite (startDrag_hit p w i b Hfirst). simpl.
  destruct Hfirst as (Hb & _). apply lookup_lt_Some in Hb.
  split; [by apply list_lookup_insert_eq|]. do 2 (split; [done|]).
  intros w2 b2 Hdrag Hidx Hb2 Hv Hwalls Hk. unfold frame. simpl.
  destruct (tick_keeps_still bd dt (balls w2) i b2 Hb2 Hv Hwalls Hk)
    as (bs' & -> & Hsame).
  simpl. by eexists.
Qed.

(** *** At concrete states *)




(** A ball beyond the left wall, and a second ball far from it. *)
Lemma resolveAll_contained_witness :
  let b : Ball R := ballAt 1 40 100 (-10) 0 in
  let c : Ball R := ballAt 1 400 100 0 0 in
  crossedLeft bounds (position b) b = true /\
  exists bs' b',
    resolveAll bounds [b; c] = Some bs' /\ bs' !! 0%nat = Some b' /\
    left bounds <= vx (position b') - radius b'.
Proof.
  intros b c.
  assert (Hleft : crossedLeft bounds (position b) b = true).
  { apply ltb_true. simpl. exact_ops. lra. }
  split; [exact Hleft|].
  destruct (resolveAll_contained bounds [b; c] 0 b) as (bs' & b' & Hr & Hb & Hc).
  - reflexivity.
  - simpl. exact_ops. lra.
  - simpl. exact_ops. lra.
  - unfold crossedBothAxes. apply andb_false_iff. right.
    apply orb_false_iff. split; apply ltb_false; simpl; exact_ops; lra.
  - apply untouched_none. intros i j A B Hij HA HB.
    change (wallPass bounds [b; c])
      with [wallCollide bounds b; wallCollide bounds c] in HA, HB.
    rewrite (wallCollide_left_only bounds b) in HA by
      (first [exact Hleft | apply ltb_false; simpl; exact_ops; lra]).
    rewrite (wallCollide_uncrossed bounds c) in HB by
      (repeat split; apply ltb_false; simpl; exact_ops; lra).
    destruct i as [|[|i]], j as [|[|j]]; try lia; try discriminate.
    injection HA as <-. injection HB as <-.
    unfold resolves, inContact. apply andb_false_iff. left.
    apply andb_false_iff. left. apply ltb_false.
    unfold dist, minD, centerDelta. simpl. exact_ops.
    rewrite (hypot_eq _ _ 335); lra.
  - exists bs', b'. tauto.
Defined.

(** A press at the center of ball 0, a second ball at rest far from it, then
    a frame without events. *)
Lemma grabbed_ball_still_witness :
  let b : Ball R := ballAt 1 100 100 3 4 in
  let c : Ball R := ballAt 1 400 100 0 0 in
  let w : World R := mkWorld [b; c] false (-1) vzero in
  let p : Vec2 R := vecAt 1 100 100 in
  firstPicked p w 0 b /\
  exists w3, frame bounds [] (1 / 60) (startDrag p w) = Some w3 /\
    balls w3 !! 0%nat = Some (setVelocity vzero b).
Proof.
  intros b c w p.
  assert (Hfirst : firstPicked p w 0 b).
  { split; [done|]. split; [|intros; lia].
    apply leb_true. simpl. exact_ops.
    rewrite (hypot_eq _ _ 0); lra. }
  split; [exact Hfirst|].
  assert (Hwalls : forall v, uncrossed bounds (setVelocity v b)).
  { intros v. repeat split; apply ltb_false; simpl; exact_ops; lra. }
  destruct (grabbed_ball_still bounds (1 / 60) w p 0 b Hfirst)
    as (Hb & Hdrag & Hidx & Hstill).
  destruct (Hstill (startDrag p w) _ Hdrag Hidx Hb) as (w3 & Hrun & Hb3 & _).
  - reflexivity.
  - apply Hwalls.
  - rewrite (startDrag_hit p w 0 b Hfirst).
    apply untouched_none. intros i j A B Hij HA HB.
    change (balls _) with [setVelocity vzero b; c] in HA, HB.
    change (moveAndWall bounds (1 / 60) <$> [setVelocity vzero b; c])
      with [wallCollide bounds (integrate (1 / 60) (setVelocity vzero b));
            wallCollide bounds (integrate (1 / 60) c)] in HA, HB.
    rewrite !integrate_still in HA, HB by reflexivity.
    rewrite (wallCollide_uncrossed bounds (setVelocity vzero b)) in HA
      by apply Hwalls.
    rewrite (wallCollide_uncrossed bounds c) in HB by
      (repeat split; apply ltb_false; simpl; exact_ops; lra).
    destruct i as [|[|i]], j as [|[|j]]; try lia; try discriminate.
    injection HA as <-. injection HB as <-.
    unfold resolves, inContact. apply andb_false_iff. left.
    apply andb_false_iff. left. apply ltb_false.
    unfold dist, minD, centerDelta. simpl. exact_ops.
    rewrite (hypot_eq _ _ 300); lra.
  - by exists w3.
Defined.

(** *** The sample runs in exact arithmetic *)

Lemma wallContainmentRun_exact : wallContainmentRun (F := R).
Proof.
  unfold wallContainmentRun.
  set (b0 := ballAt 1 65 100 0 0 : Ball R).
  set (b1 := ballAt 1 85 100 10 0 : Ball R).
  assert (Hin0 : contained bounds b0 = true).
  { apply contained_exact. simpl. exact_ops. lra. }
  assert (Hin1 : contained bounds b1 = true).
  { apply contained_exact. simpl. exact_ops. lra. }
  assert (Hd : dist b0 b1 = 20).
  { apply hypot_eq; simpl; exact_ops; lra. }
  assert (Hv : vrel b0 b1 = -10).
  { unfold vrel, normal. rewrite Hd. unfold dot. simpl. exact_ops. lra. }
  assert (Hres : resolves b0 b1 = true).
  { apply resolves_exact. rewrite Hv, Hd. unfold minD. simpl. exact_ops. lra. }
  split; [done|]. split; [done|]. split.
  - unfold resolveAll. rewrite wallPass_uncrossed.
    2:{ repeat constructor; apply ltb_false; simpl; exact_ops; lra. }
    rewrite ballPass_two, (collideAt_eq 0 1 [b0; b1] b0 b1 eq_refl eq_refl).
    rewrite Hres, Hv. unfold bounce, impulse, normal. rewrite Hd. simpl.
    unfold ballAt, vecAt, move, setPosition, setVelocity, vadd, vsub, vscale,
      vneg, vdiv, minD, restitution. simpl. exact_ops.
    fields_eq.
  - unfold contained. simpl. exact_ops.
    replace (Exact.leb (50 / 1) (60 / 1 - 15 / 1)) with false; [done|].
    symmetry. apply leb_false. lra.
Qed.


Lemma grabbedPinningRun_exact : grabbedPinningRun (F := R).
Proof.
  unfold grabbedPinningRun.
  set (A := ballAt 1 100 100 0 0 : Ball R).
  set (B := ballAt 1 120 100 10 0 : Ball R).
  set (p := vecAt 1 100 100 : Vec2 R).
  set (w := mkWorld [A; B] false (-1) vzero).
  assert (Hfirst : firstPicked p w 0 A).
  { split; [done|]. split; [|intros; lia].
    apply leb_true. simpl. exact_ops. rewrite (hypot_eq _ _ 0); lra. }
  assert (Hgrab : startDrag p w = mkWorld [A; B] true 0 p).
  { by rewrite (startDrag_hit p w 0 A Hfirst). }
  split; [exact Hgrab|]. rewrite Hgrab. unfold frame, tick. simpl foldl.
  set (B1 := mkBall (mkVec2 (245 / 2) 100) (mkVec2 10 0) 15 : Ball R).
  assert (HB1 : integrate (lit 1 4) B = B1).
  { unfold integrate, move, setPosition, vadd, vscale, B1, B, ballAt, vecAt.
    simpl. exact_ops. fields_eq. }
  change (moveAndWall bounds (lit 1 4) <$> balls (mkWorld [A; B] true 0 p))
    with [wallCollide bounds (integrate (lit 1 4) A);
          wallCollide bounds (integrate (lit 1 4) B)].
  rewrite (integrate_still _ A) by reflexivity. rewrite HB1.
  rewrite !wallCollide_uncrossed
    by (repeat split; apply ltb_false; simpl; exact_ops; lra).
  assert (Hd : dist A B1 = 45 / 2).
  { apply hypot_eq; simpl; exact_ops; lra. }
  assert (Hv : vrel A B1 = -10).
  { unfold vrel, normal. rewrite Hd. unfold dot. simpl. exact_ops. lra. }
  assert (Hres : resolves A B1 = true).
  { apply resolves_exact. rewrite Hv, Hd. unfold minD. simpl. exact_ops. lra. }
  rewrite ballPass_two, (collideAt_eq 0 1 [A; B1] A B1 eq_refl eq_refl).
  rewrite Hres, Hv. unfold bounce, impulse, normal. rewrite Hd. simpl.
  unfold ballAt, vecAt, move, setPosition, setVelocity, vadd, vsub, vscale,
    vneg, vdiv, minD, restitution. simpl. exact_ops.
  fields_eq.
Qed.

Lemma cornerRun_exact : cornerRun (F := R).
Proof.
  unfold cornerRun.
  set (b := ballAt 1 60 60 (-10) (-10) : Ball R).
  assert (Hrun : wallCollide bounds b = ballAt 1 60 65 8 8).
  { unfold wallCollide, hitLeft, hitRight, hitTop, hitBottom, crossedLeft,
      crossedRight, crossedTop, crossedBottom, scaleVelX, scaleVelY,
      setVelocity, setPosition, restitution, b, ballAt, vecAt.
    simpl. exact_ops. unfold Exact.ltb.
    repeat (destruct (Rlt_dec _ _); simpl in *; try lra). fields_eq. }
  split; [apply ltb_true; simpl; exact_ops; lra|].
  split; [apply ltb_true; simpl; exact_ops; lra|].
  split; [exact Hrun|]. rewrite Hrun.
  unfold contained. simpl. exact_ops.
  replace (Exact.leb (50 / 1) (60 / 1 - 15 / 1)) with false; [done|].
  symmetry. apply leb_false. lra.
Qed.

(** *** A world at rest *)

Lemma vrel_rest A B :
  velocity A = vzero -> velocity B = vzero -> vrel A B = 0.
Proof.
  intros HA HB. unfold vrel, dot. rewrite HA, HB. simpl. exact_ops. lra.
Qed.

Lemma tick_rest bd (dt : R) bs :
  Forall (fun b => velocity b = vzero /\ uncrossed bd b) bs ->
  tick bd dt bs = Some bs.
Proof.
  intros Hrest. unfold tick.
  assert (Hsame : moveAndWall bd dt <$> bs = bs).
  { induction Hrest as [|b bs [Hv Hw] _ IH]; [done|].
    rewrite fmap_cons, IH. unfold moveAndWall.
    by rewrite (integrate_still dt b Hv), (wallCollide_uncrossed bd b Hw). }
  rewrite Hsame. apply ballPass_fixed. intros i j A B _ HA HB.
  rewrite Forall_forall in Hrest.
  destruct (Hrest A (list_elem_of_lookup_2 _ _ _ HA)) as [HvA _].
  destruct (Hrest B (list_elem_of_lookup_2 _ _ _ HB)) as [HvB _].
  unfold resolves. rewrite (vrel_rest A B HvA HvB). exact_ops.
  replace (Exact.ltb 0 (0 / 1)) with false; [by rewrite andb_false_r|].
  symmetry. apply ltb_false. lra.
Qed.

Lemma runFrames_rest bd (frames : list (list (Event R) * R)) (w : World R) :
  Forall (fun b => velocity b = vzero /\ uncrossed bd b) (balls w) ->
  Forall (fun fr => fr.1 = []) frames ->
  runFrames bd frames w = Some w.
Proof.
  intros Hrest Hquiet.
  induction Hquiet as [|[events dt] frames Hev _ IH]; [done|].
  simpl in *. subst events. unfold frame. simpl.
  rewrite (tick_rest bd dt (balls w) Hrest). simpl. by destruct w.
Qed.

(** X5.  A world at rest stays at rest: when every ball has velocity zero and
    no edge beyond a wall, frames without events return the world as it is,
    whatever the clock values and even when balls overlap (a pair without
    relative velocity is never pushed apart). *)
Theorem rest_is_fixed bd (frames : list (list (Event R) * R)) (w : World R) :
  Forall (fun b => velocity b = vzero /\ uncrossed bd b) (balls w) ->
  Forall (fun fr => fr.1 = []) frames ->
  runFrames bd frames w = Some w.
Proof. apply runFrames_rest. Qed.

(** *** Start-up *)

Lemma placement_uncrossed (p : Vec2 R) :
  inPlacementRange bounds p -> uncrossed bounds (mkBall p vzero (lit 15 1)).
Proof.
  destruct p as [x y]. unfold inPlacementRange. simpl. exact_ops.
  rewrite !leb_true. intros (Hl & Hr & Ht & Hb).
  repeat split; apply ltb_false; simpl; exact_ops; lra.
Qed.

(** X6.  At start-up every ball is placed with its center at least 20 inside
    the container, so the discs of radius 15 lie inside it; all velocities
    are zero, and until the first event the frames change nothing: balls
    placed on top of each other stay so. *)
Theorem startup_still (places : list (Vec2 R))
    (frames : list (list (Event R) * R)) :
  Forall (inPlacementRange bounds) places ->
  Forall (fun fr => fr.1 = []) frames ->
  Forall (fun b => contained bounds b = true) (balls (initWorld places)) /\
  runFrames bounds frames (initWorld places) = Some (initWorld places).
Proof.
  intros Hplaces Hquiet. split.
  - simpl. induction Hplaces as [|p places Hp _ IH]; [done|].
    rewrite fmap_cons. constructor; [|exact IH].
    apply contained_exact. destruct p as [x y].
    unfold inPlacementRange in Hp. simpl in *. exact_ops.
    rewrite !leb_true in Hp. lra.
  - apply runFrames_rest; [|done]. simpl.
    induction Hplaces as [|p places Hp _ IH]; [done|].
    rewrite fmap_cons. constructor; [|exact IH].
    split; [done|]. by apply placement_uncrossed.
Qed.

(** *** The sign of [vrel] *)

(** In exact arithmetic: [n] points from [A] to [B], and [vrel] is negative
    exactly when the velocity
    of [B] relative to [A] points along the center delta, that is when the
    two centers are moving apart. *)
Lemma vrel_negative_moving_apart A B :
  0 < dist A B ->
  (vrel A B < 0 <->
   0 < dot (vsub (velocity B) (velocity A)) (centerDelta A B)).
Proof.
  intros Hpos.
  assert (Heq : dot (vsub (velocity B) (velocity A)) (centerDelta A B) =
                - vrel A B * dist A B).
  { unfold vrel, normal. set (D := dist A B) in *. clearbody D.
    unfold dot, vsub, vdiv. simpl. exact_ops. field. lra. }
  rewrite Heq. split; intros Hv; [nra|].
  destruct (Rlt_dec (vrel A B) 0); [done|nra].
Qed.

(** *** The wall tests, applied twice *)

Lemma contained_uncrossed bd b : contained bd b = true -> uncrossed bd b.
Proof.
  intros Hin. apply contained_exact in Hin.
  repeat split; apply ltb_false; exact_ops; lra.
Qed.

(** X11.  For a ball beyond the walls of at most one axis, in a container at
    least as wide and as high as the ball, the four wall tests are
    idempotent: applied to their own result they change nothing (one pass
    puts the ball inside, and its velocity is reflected once only). *)
Theorem wallCollide_idempotent bd b :
  2 * radius b <= width bd -> 2 * radius b <= height bd ->
  crossedBothAxes bd b = false ->
  wallCollide bd (wallCollide bd b) = wallCollide bd b.
Proof.
  intros Hw Hh Hone. apply wallCollide_uncrossed, contained_uncrossed.
  by apply wallCollide_contained.
Qed.

(** *** The further laws at concrete states *)

(** Two overlapping balls at rest, two frames without events. *)
Lemma rest_is_fixed_witness :
  let w : World R :=
    mkWorld [ballAt 1 100 100 0 0; ballAt 1 110 100 0 0] false (-1) vzero in
  runFrames bounds [([], 1 / 60); ([], 1 / 30)] w = Some w.
Proof.
  intros w. apply rest_is_fixed.
  - repeat constructor; apply ltb_false; simpl; exact_ops; lra.
  - by repeat constructor.
Defined.

(** Two balls placed 5 apart. *)
Lemma startup_still_witness :
  let places : list (Vec2 R) := [vecAt 1 100 100; vecAt 1 105 100] in
  Forall (inPlacementRange bounds) places /\
  runFrames bounds [([], 1 / 60)] (initWorld places) = Some (initWorld places).
Proof.
  intros places.
  assert (Hplaces : Forall (inPlacementRange bounds) places).
  { repeat constructor; apply leb_true; simpl; exact_ops; lra. }
  split; [exact Hplaces|].
  apply (startup_still places [([], 1 / 60)] Hplaces). by repeat constructor.
Defined.

(** A ball beyond the left wall. *)
Lemma wallCollide_idempotent_witness :
  let b : Ball R := ballAt 1 40 100 (-10) 0 in
  crossedLeft bounds (position b) b = true /\
  wallCollide bounds (wallCollide bounds b) = wallCollide bounds b.
Proof.
  intros b. split.
  { apply ltb_true. simpl. exact_ops. lra. }
  apply wallCollide_idempotent.
  - simpl. exact_ops. lra.
  - simpl. exact_ops. lra.
  - unfold crossedBothAxes. apply andb_false_iff. right.
    apply orb_false_iff. split; apply ltb_false; simpl; exact_ops; lra.
Defined.
End ExactLaws.

(** ** Runs in binary32 *)
Section MachineRuns.
Local Open Scope Z_scope.
Implicit Types (b : Ball spec_float).

Lemma cornerRun_binary32 : cornerRun (F := spec_float).
Proof. vm_compute. by repeat split. Qed.

Lemma wallContainmentRun_binary32 : wallContainmentRun (F := spec_float).
Proof. vm_compute. by repeat split. Qed.


Lemma grabbedPinningRun_binary32 : grabbedPinningRun (F := spec_float).
Proof. vm_compute. by split. Qed.

(** Two balls that move towards each other: their [vrel] is positive, the
    pair is not handled and they are closer after the update. *)
Lemma approaching_pair_run :
  let A : Ball spec_float := ballAt 1 100 100 10 0 in
  let B : Ball spec_float := ballAt 1 110 100 (-10) 0 in
  vrel A B = lit 20 1 /\
  tick bounds (lit 1 4) [A; B] =
    Some [ballAt 2 205 200 20 0; ballAt 2 215 200 (-20) 0].
Proof. vm_compute. by repeat split. Qed.
(** Handled pairs of balls inside the container, on machine floats: the
    distance after the resolution is within 1/1000 of [minD], and it is not
    [minD] itself. *)
Lemma separation_binary32 :
  let A1 : Ball spec_float := ballAt 1 120 100 0 0 in
  let B1 : Ball spec_float :=
    mkBall (vecAt 10 1282 1000) (vecAt 1 10 0) (lit 15 1) in
  let A2 : Ball spec_float :=
    mkBall (vecAt 10000 6818548 5248881) vzero (lit 15 1) in
  let B2 : Ball spec_float :=
    mkBall (vecAt 10000 6914920 5345253) (vecAt 1 10 10) (lit 15 1) in
  let after A B :=
    match collide A B with
    | Some (A', B') =>
        (resolves A B, separated (lit 1 1000) A B A' B', dist A' B')
    | None => (false, false, lit 0 1)
    end in
  contained bounds A1 && contained bounds B1 &&
  contained bounds A2 && contained bounds B2 = true /\
  after A1 B1 = (true, true, S754_finite false 15728644 (-19)) /\
  after A2 B2 = (true, true, S754_finite false 15728680 (-19)) /\
  minD A1 B1 = S754_finite false 15728640 (-19).
Proof. vm_compute. by repeat split. Qed.

(** The same on a sweep: of 120 sample pairs 116 are handled pairs inside
    the container, and each of them is within 1/1000 of [minD] after its
    resolution. *)
Lemma separation_binary32_sweep :
  let handled :=
    filter (fun AB => handledInside AB = true)
           (samplePairs (F := spec_float) 120 1) in
  length handled = 116%nat /\ forallb separatedAfter handled = true.
Proof. vm_compute. by split. Qed.
End MachineRuns.

(** ** The claims that fail, at a concrete state *)
Section Failures.

(** C4 (wall policy) fails in a corner, in binary32 and in exact arithmetic.
    A ball of radius 15 at (60, 60) with velocity (-10, -10) is beyond the
    left and the top wall.  The top branch writes back the x coordinate read
    before the left branch put the ball at 65: the ball ends at (60, 65), its
    left edge at 45 and not at the wall, while both velocity components are
    multiplied by [-restitution]. *)
Theorem wallCollide_corner_run :
  cornerRun (F := spec_float) /\ cornerRun (F := R).
Proof. split; [apply cornerRun_binary32 | apply cornerRun_exact]. Qed.

(** C1 (wall containment) fails as stated, in binary32 and in exact
    arithmetic.  Both balls are inside the container; the wall pass changes
    nothing, the ball-ball pass pushes ball 0 to x = 60, and its left edge is
    at 45, outside the container, when [resolveAll] returns. *)
Lemma wall_containment_counterexample :
  wallContainmentRun (F := spec_float) /\ wallContainmentRun (F := R).
Proof.
  split; [apply wallContainmentRun_binary32 | apply wallContainmentRun_exact].
Qed.


(** C6 (grabbed-state pinning) fails as stated, in binary32 and in exact
    arithmetic.  A press grabs ball 0, at rest; ball 1 overlaps it and moves
    away; the update of the frame handles the pair, and the grabbed ball ends
    at (96.25, 100) with velocity (9, 0) while the session is still open. *)
Lemma grabbed_pinning_counterexample :
  grabbedPinningRun (F := spec_float) /\ grabbedPinningRun (F := R).
Proof.
  split; [apply grabbedPinningRun_binary32 | apply grabbedPinningRun_exact].
Qed.
(** C9 (pairwise conservation) fails as stated on machine floats.  Both
    pairs are handled.  For the first the sum of the two velocities is
    [8443519 * 2^-13] before the resolution and [8443518 * 2^-13] after it;
    for the second the midpoint of the centers has x [16266035 * 2^-17]
    before and [16266036 * 2^-17] after. *)
Lemma pairwise_conservation_counterexample :
  let A1 : Ball spec_float :=
    mkBall (vecAt 1 100 100) (vecAt 1000 3 0) (lit 15 1) in
  let B1 : Ball spec_float :=
    mkBall (vecAt 1 120 100) (vecAt 10 10307 0) (lit 15 1) in
  let A2 : Ball spec_float := ballAt 1 120 100 0 0 in
  let B2 : Ball spec_float :=
    mkBall (vecAt 10 1282 1000) (vecAt 1 10 0) (lit 15 1) in
  let sums (A B : Ball spec_float) :=
    (vx (vadd (velocity A) (velocity B)),
     vx (vdiv (vadd (position A) (position B)) (lit 2 1))) in
  resolves A1 B1 = true /\ resolves A2 B2 = true /\
  (exists A' B', collide A1 B1 = Some (A', B') /\
     (sums A1 B1).1 = S754_finite false 8443519 (-13) /\
     (sums A' B').1 = S754_finite false 8443518 (-13)) /\
  (exists A' B', collide A2 B2 = Some (A', B') /\
     (sums A2 B2).2 = S754_finite false 16266035 (-17) /\
     (sums A' B').2 = S754_finite false 16266036 (-17)).
Proof.
  intros A1 B1 A2 B2 sums.
  split; [by vm_compute|]. split; [by vm_compute|].
  split.
  - exists (bounce (normal A1 B1) (vrel A1 B1) A1 B1).1,
           (bounce (normal A1 B1) (vrel A1 B1) A1 B1).2.
    by vm_compute.
  - exists (bounce (normal A2 B2) (vrel A2 B2) A2 B2).1,
           (bounce (normal A2 B2) (vrel A2 B2) A2 B2).2.
    by vm_compute.
Qed.
End Failures.

(** ** The theorems at concrete states *)
Section Instances.
Local Open Scope Z_scope.

(** Two balls apart and inside the container are left as they are. *)
Lemma resolveAll_no_collision_witness :
  let bs : list (Ball spec_float) :=
    [ballAt 1 100 100 30 40; ballAt 1 200 300 (-5) 0] in
  resolveAll bounds bs = Some bs.
Proof.
  intros bs. apply resolveAll_no_collision.
  - repeat constructor.
  - intros i j A B Hij HA HB.
    destruct i as [|[|i]], j as [|[|j]]; try lia; try discriminate.
    injection HA as <-. injection HB as <-. reflexivity.
Defined.

(** Two balls at the same place. *)
Lemma collide_coincident_witness :
  let A : Ball spec_float := ballAt 1 100 100 10 0 in
  let B : Ball spec_float := ballAt 1 100 100 (-10) 0 in
  dist A B = lit 0 1 /\ collide A B = Some (A, B).
Proof.
  intros A B. split; [reflexivity|].
  apply (collide_coincident A B); reflexivity.
Defined.

(** A handled pair: ball 1 overlaps ball 0 and moves away from it. *)
Lemma ballPass_policy_witness :
  let A : Ball spec_float := ballAt 1 100 100 0 0 in
  let B : Ball spec_float := ballAt 1 120 100 10 0 in
  collideAt 0 1 [A; B] = Some [ballAt 1 95 100 9 0; ballAt 1 125 100 1 0].
Proof.
  intros A B.
  destruct (ballPass_policy [A; B] 0 1 A B eq_refl eq_refl)
    as (_ & _ & _ & -> & _).
  reflexivity.
Defined.

(** A press inside ball 1 only, then a release 10 to the right. *)
Lemma drag_throw_contract_witness :
  let w : World spec_float :=
    mkWorld [ballAt 1 100 100 3 4; ballAt 1 200 100 5 6] false (-1) vzero in
  let p : Vec2 spec_float := vecAt 1 205 100 in
  let q : Vec2 spec_float := vecAt 1 215 100 in
  firstPicked p w 1 (ballAt 1 200 100 5 6) /\
  endDrag q (startDrag p w) =
    mkWorld [ballAt 1 100 100 3 4; ballAt 1 200 100 50 0] false 1 p.
Proof.
  intros w p q.
  assert (Hfirst : firstPicked p w 1 (ballAt 1 200 100 5 6)).
  { repeat split. intros i' b' Hlt Hb'.
    destruct i' as [|i']; [|lia]. by injection Hb' as <-. }
  split; [exact Hfirst|].
  destruct (drag_throw_contract w p q) as (Hgrab & _).
  destruct (Hgrab 1%nat _ Hfirst) as [_ ->]. reflexivity.
Defined.

Lemma startDrag_frame_witness :
  let w : World spec_float :=
    mkWorld [ballAt 1 100 100 3 4; ballAt 1 200 100 5 6] false (-1) vzero in
  let p : Vec2 spec_float := vecAt 1 205 100 in
  firstPicked p w 1 (ballAt 1 200 100 5 6) /\
  position <$> balls (startDrag p w) = position <$> balls w /\
  velocity <$> balls (startDrag p w) !! 1%nat = Some vzero.
Proof.
  intros w p.
  assert (Hfirst : firstPicked p w 1 (ballAt 1 200 100 5 6)).
  { repeat split. intros i' b' Hlt Hb'.
    destruct i' as [|i']; [|lia]. by injection Hb' as <-. }
  split; [exact Hfirst|].
  destruct (startDrag_frame w p) as (Hgrab & _).
  destruct (Hgrab 1%nat _ Hfirst) as (Hpos & _ & _ & _ & Hvel & _).
  by split.
Defined.
(** The opposite of a factor gives the opposite product, in binary32. *)
Lemma SFmul_opp_l (a b : spec_float) :
  SFmul Binary32.prec Binary32.emax (SFopp a) b =
  SFopp (SFmul Binary32.prec Binary32.emax a b).
Proof.
  destruct a as [sa|sa| |sa ma ea], b as [sb|sb| |sb mb eb]; simpl;
    try reflexivity; try (by destruct sa, sb).
  unfold binary_round_aux.
  replace (xorb (negb sa) sb) with (negb (xorb sa sb)) by by destruct sa, sb.
  destruct (shr_fexp _ _ _ _ _) as [mrs1 e1].
  destruct (shr_fexp _ _ _ _ _) as [mrs2 e2].
  destruct (shr_m mrs2); [done| |done].
  by destruct (_ <=? _)%Z.
Qed.

(** A handled pair on machine floats: one impulse and one push. *)
Lemma collide_conserves_witness :
  let A : Ball spec_float := ballAt 1 100 100 0 0 in
  let B : Ball spec_float := ballAt 1 120 100 10 0 in
  exists A' B' P Q,
    collide A B = Some (A', B') /\
    velocity A' = vadd (velocity A) P /\
    velocity B' = vsub (velocity B) P /\
    position A' = vadd (position A) (vneg Q) /\
    position B' = vadd (position B) Q.
Proof.
  intros A B.
  assert (Hres : resolves A B = true) by (vm_compute; reflexivity).
  set (A' := (bounce (normal A B) (vrel A B) A B).1).
  set (B' := (bounce (normal A B) (vrel A B) A B).2).
  assert (Hc : collide A B = Some (A', B')).
  { rewrite collide_eq, Hres. subst A' B'. by rewrite <- surjective_pairing. }
  generalize (collide_conserves A B A' B' SFmul_opp_l Hc).
  rewrite Hres. intros (P & Q & _ & _ & HvA & HvB & HpA & HpB & _).
  exists A', B', P, Q.
  exact (conj Hc (conj HvA (conj HvB (conj HpA HpB)))).
Defined.
End Instances.

(** ** Further laws of the collision simulation, in any scalar arithmetic *)
Section CollisionLaws.
Context {F : Type} `{Scalar F}.
Local Open Scope scalar_scope.
Implicit Types (A B b : Ball F) (bs : list (Ball F)) (w : World F).
Implicit Types (p m : Vec2 F) (bd : FloatRect F).

(** *** What the event handlers leave alone *)

Lemma updateAt_static {T : Type} (proj : Ball F -> T) (i : Z)
    (f : Ball F -> Ball F) bs :
  (forall b, proj (f b) = proj b) ->
  proj <$> updateAt i f bs = proj <$> bs.
Proof.
  intros Hf. unfold updateAt. destruct (0 <=? i)%Z; [|done].
  rewrite (list_fmap_alter proj f (fun x : T => x))
    by (apply Forall_forall; intros b _; apply Hf).
  by apply list_alter_id.
Qed.

Lemma handleEvent_static {T : Type} (proj : Ball F -> T) w e :
  (forall v b, proj (setVelocity v b) = proj b) ->
  proj <$> balls (handleEvent w e) = proj <$> balls w.
Proof.
  intros Hproj. destruct e as [| |m|m|]; simpl; try done.
  - rewrite <- list_fmap_compose. apply list_fmap_ext. intros _ b _. apply Hproj.
  - unfold startDrag.
    destruct (pressLoop_cases m (length (balls w)) 0 w) as [->|(t & _ & ->)];
      [done|].
    simpl. apply updateAt_static. intros b. apply Hproj.
  - unfold endDrag. destruct (dragging w); [|done]. simpl.
    apply updateAt_static. intros b. apply Hproj.
Qed.

(** X3.  No event handler moves a ball: whatever the event (close, space,
    press, release or any other), every position, every radius and the number
    of balls are the same after the handler as before.  Positions only change
    in the update. *)
Theorem handleEvent_moves_nothing w e :
  position <$> balls (handleEvent w e) = position <$> balls w /\
  radius <$> balls (handleEvent w e) = radius <$> balls w /\
  length (balls (handleEvent w e)) = length (balls w).
Proof.
  assert (Hpos := handleEvent_static position w e (fun _ _ => eq_refl)).
  split; [exact Hpos|]. split.
  - apply (handleEvent_static radius). done.
  - by rewrite <- (length_fmap position), Hpos, length_fmap.
Qed.

(** *** Invariants of a whole run *)

Lemma foldl_handleEvent_static {T : Type} (proj : Ball F -> T) events w :
  (forall v b, proj (setVelocity v b) = proj b) ->
  proj <$> balls (foldl handleEvent w events) = proj <$> balls w.
Proof.
  intros Hproj. revert w. induction events as [|e events IH]; intros w; [done|].
  simpl. by rewrite IH, handleEvent_static.
Qed.

Lemma frame_shape bd events (dt : F) w :
  dragValid w ->
  exists w', frame bd events dt w = Some w' /\ dragValid w' /\
    radius <$> balls w' = radius <$> balls w.
Proof.
  intros Hw. destruct (frame_dragValid bd events dt w Hw) as (w' & Hrun & Hw' & _).
  exists w'. split; [done|]. split; [done|].
  unfold frame in Hrun.
  destruct (tick_radius bd dt (balls (foldl handleEvent w events)))
    as (bs' & Htick & Hr).
  rewrite Htick in Hrun. injection Hrun as <-. simpl.
  by rewrite Hr, (foldl_handleEvent_static radius).
Qed.

Lemma runFrames_shape bd frames w :
  dragValid w ->
  exists w', runFrames bd frames w = Some w' /\ dragValid w' /\
    radius <$> balls w' = radius <$> balls w.
Proof.
  revert w. induction frames as [|[events dt] frames IH]; intros w Hw; simpl.
  { by exists w. }
  destruct (frame_shape bd events dt w Hw) as (w1 & -> & Hw1 & Hr1). simpl.
  destruct (existsb isClosed events); [by exists w1|].
  destruct (IH w1 Hw1) as (w' & Hrun & Hw' & Hr).
  exists w'. split; [done|]. split; [done|]. by rewrite Hr.
Qed.

(** X1.  From start-up, whatever the placement of the balls and whatever
    events and clock values the frames bring, the loop never fails (no
    division by zero, no index outside the vector), and whenever a session is
    open [dragIndex] is the index of a ball: [balls[dragIndex]] in the
    release handler is always a ball. *)
Theorem runFrames_safe bd (places : list (Vec2 F)) frames :
  exists w, runFrames bd frames (initWorld places) = Some w /\
    (dragging w = true ->
     (0 <= dragIndex w < Z.of_nat (length (balls w)))%Z).
Proof.
  destruct (runFrames_shape bd frames (initWorld places)) as (w & Hrun & Hw & _).
  { intros Hdrag. discriminate Hdrag. }
  by exists w.
Qed.

(** X2.  From start-up, after any number of frames the vector holds as many
    balls as were placed and every ball still has radius [15.f]: no code path
    adds, removes or resizes a ball. *)
Theorem runFrames_same_balls bd (places : list (Vec2 F)) frames :
  exists w, runFrames bd frames (initWorld places) = Some w /\
    length (balls w) = length places /\
    Forall (fun b => radius b = lit 15 1) (balls w).
Proof.
  destruct (runFrames_shape bd frames (initWorld places)) as (w & Hrun & _ & Hr).
  { intros Hdrag. discriminate Hdrag. }
  exists w. split; [done|].
  assert (Hinit : radius <$> balls (initWorld places)
                  = replicate (length places) (lit 15 1)).
  { simpl. rewrite <- list_fmap_compose. clear.
    induction places as [|p places IH]; [done|]. simpl. by rewrite <- IH. }
  rewrite Hinit in Hr. split.
  - by rewrite <- (length_fmap radius), Hr, length_replicate.
  - apply Forall_forall. intros b Hb.
    apply (list_elem_of_fmap_2 radius) in Hb. rewrite Hr in Hb.
    by apply elem_of_replicate in Hb as [-> _].
Qed.

(** *** The space key *)

Lemma clearVelocities_twice w :
  clearVelocities (clearVelocities w) = clearVelocities w.
Proof.
  unfold clearVelocities. simpl. f_equal.
  rewrite <- list_fmap_compose. by apply list_fmap_ext.
Qed.

(** X4.  The space key stops every ball where it is and cancels the session:
    after it all velocities are zero and the session is closed, and as long
    as no press follows, later events (releases, further space keys, others)
    of the frame change nothing; in particular the release of a ball grabbed
    before the space key throws nothing. *)
Theorem space_key_cancels w events :
  Forall (fun e => forall m, e <> LeftPressed m) events ->
  Forall (fun b => velocity b = vzero) (balls (handleEvent w SpacePressed)) /\
  dragging (handleEvent w SpacePressed) = false /\
  foldl handleEvent (handleEvent w SpacePressed) events =
    handleEvent w SpacePressed.
Proof.
  intros Hno. simpl. split; [|split; [done|]].
  - apply Forall_forall. intros b Hb.
    by apply list_elem_of_fmap in Hb as (b0 & -> & _).
  - induction Hno as [|e events He _ IH]; [done|]. simpl.
    destruct e as [| |m|m|]; simpl; try done.
    + by rewrite clearVelocities_twice.
    + by destruct (He m).
Qed.

(** *** The corner of the container *)

(** X13.  A ball beyond an x wall and beyond a y wall is still beyond that x
    wall after the four wall tests: the branch of the y wall writes back the
    x coordinate read before the tests, and the same test on the result is
    true again.  (Only its velocity has been reflected on both axes.) *)
Theorem wallCollide_corner_still_crossed bd b :
  crossedTop bd (position b) b || crossedBottom bd (position b) b = true ->
  crossedLeft bd (position (wallCollide bd b)) (wallCollide bd b) =
    crossedLeft bd (position b) b /\
  crossedRight bd (position (wallCollide bd b)) (wallCollide bd b) =
    crossedRight bd (position b) b.
Proof.
  intros Hy. unfold crossedLeft, crossedRight.
  by rewrite (wallCollide_y_restores_x bd b Hy), wallCollide_radius.
Qed.

(** *** Fewer than two balls *)

(** X14.  With no ball or one ball there is no pair: the update is the move
    and the wall tests of that ball and nothing else, and it returns. *)
Theorem tick_short bd (dt : F) bs :
  (length bs <= 1)%nat ->
  tick bd dt bs = Some (moveAndWall bd dt <$> bs).
Proof.
  intros Hlen. unfold tick. apply ballPass_fixed.
  intros i j A B Hij HA HB. apply lookup_lt_Some in HB.
  rewrite length_fmap in HB. lia.
Qed.

(** *** When a press opens a session *)

Lemma first_picked_exists m bs :
  (exists i b, bs !! i = Some b /\ picks m b = true) ->
  exists i b, bs !! i = Some b /\ picks m b = true /\
    forall i' b', (i' < i)%nat -> bs !! i' = Some b' -> picks m b' = false.
Proof.
  induction bs as [|b0 bs IH]; intros (i & b & Hb & Hp); [done|].
  destruct (picks m b0) eqn:Hp0.
  { exists 0%nat, b0. split; [done|]. split; [done|]. intros; lia. }
  destruct i as [|i]; [simpl in Hb; congruence|].
  destruct IH as (k & bk & Hk & Hpk & Hbefore); [by exists i, b|].
  exists (S k), bk. split; [done|]. split; [done|].
  intros [|i'] b' Hlt Hb'; simpl in Hb'; [congruence|].
  apply (Hbefore i'); [lia|done].
Qed.

(** X15.  A press opens a session exactly when the pointer is on some ball
    (within its radius of the center); the ball then recorded in [dragIndex]
    is one the pointer is on.  A press elsewhere leaves a closed session
    closed. *)
Theorem startDrag_opens_iff m w :
  dragging w = false ->
  (dragging (startDrag m w) = true <->
   exists i b, balls w !! i = Some b /\ picks m b = true) /\
  (dragging (startDrag m w) = true ->
   exists b, balls w !! Z.to_nat (dragIndex (startDrag m w)) = Some b /\
             picks m b = true).
Proof.
  intros Hclosed.
  assert (Hcases :
    (exists i b, balls w !! i = Some b /\ picks m b = true) \/
    (forall i b, balls w !! i = Some b -> picks m b = false)).
  { clear. induction (balls w) as [|b0 bs [(i & b & Hb & Hp)|Hno]].
    - right. intros i b Hb. done.
    - left. by exists (S i), b.
    - destruct (picks m b0) eqn:Hp0.
      + left. by exists 0%nat, b0.
      + right. intros [|i] b Hb; simpl in Hb; [congruence|by apply (Hno i)]. }
  destruct Hcases as [Hsome|Hnone].
  - destruct (first_picked_exists m (balls w) Hsome) as (i & b & Hfirst).
    rewrite (startDrag_hit m w i b Hfirst). simpl. rewrite Nat2Z.id.
    split; [done|]. intros _. exists b. by destruct Hfirst as (Hb & Hp & _).
  - rewrite (startDrag_miss m w Hnone), Hclosed. split; [|done].
    split; [done|]. intros (i & b & Hb & Hp). by rewrite (Hnone i b Hb) in Hp.
Qed.
End CollisionLaws.

(** ** Laws of the menu *)
Section MenuLaws.
Import Menu.

Lemma main_step (c : Z) rest :
  c <> 5%Z ->
  omap ran (main (Some c :: rest)) =
  match simOf c with Some s => [s] | None => [] end ++ omap ran (main rest).
Proof.
  intros Hc. simpl.
  destruct c as [|[[[]|[]|]|[[]|[]|]|]|]; simpl; try done.
Qed.

(** X16.  The menu runs exactly the simulations chosen, in the order chosen:
    for reads that all succeed with choices other than 5, followed by the
    choice 5 or by a failed read, the simulations run are those of the
    choices 1 to 4 among them (any other number runs nothing), and whatever
    follows the 5 or the failed read is never read.  The same holds when the
    input ends. *)
Theorem menu_runs_choices (pre : list (option Z)) (stop : option Z) post :
  Forall (fun r => exists c, r = Some c /\ c <> 5%Z) pre ->
  stop = None \/ stop = Some 5%Z ->
  omap ran (main (pre ++ stop :: post)) = omap (fun r => r ≫= simOf) pre /\
  omap ran (main pre) = omap (fun r => r ≫= simOf) pre /\
  main (pre ++ stop :: post) = main (pre ++ [stop]).
Proof.
  intros Hpre Hstop.
  induction Hpre as [|r pre (c & -> & Hc) _ (IH1 & IH2 & IH3)].
  - simpl. by destruct Hstop as [-> | ->].
  - rewrite <- !app_comm_cons. split; [|split].
    + rewrite (main_step c _ Hc), IH1. simpl. by destruct (simOf c).
    + rewrite (main_step c _ Hc), IH2. simpl. by destruct (simOf c).
    + simpl. rewrite IH3. done.
Qed.

(** X17.  The two entry points agree: for every sequence of reads the
    single-file [main], which stores the chosen simulation and runs it after
    the [switch], performs the same actions as the [main] of [mainFile.cpp],
    whatever simulation is stored at the start. *)
Theorem mainClasses_main (sim : option Sim) (reads : list (option Z)) :
  mainClasses sim reads = main reads.
Proof.
  revert sim. induction reads as [|[c|] reads IH]; intros sim; [done| |done].
  simpl. f_equal.
  destruct c as [|[[[]|[]|]|[[]|[]|]|]|]; simpl; by rewrite ?IH.
Qed.
End MenuLaws.

(** ** Laws of the orbit simulation *)
Section OrbitLaws.
Context {F : Type} `{Scalar F}.
Variables fcos fsin : F -> F.
Import Orbit.



End OrbitLaws.

(** ** Laws of the viscosity simulation, in any scalar arithmetic *)
Section ViscosityLaws.
Context {F : Type} `{Scalar F}.
Import Viscosity.
Implicit Types (w : World F) (c : PhysicsCircle F).

Lemma init_wellFormed (winW winH : F) : wellFormed (init winW winH).
Proof. done. Qed.

(** One iteration of the update loop, for an index inside the vectors. *)
Lemma updateAt_spec (dt : F) i w :
  wellFormed w -> (i < COUNT)%nat ->
  exists c cont eta ph,
    balls w !! i = Some c /\ containers w !! i = Some cont /\
    viscosityValues !! i = Some eta /\ phases w !! i = Some ph /\
    updateAt dt i w =
      Some (mkWorld (containers w)
                    (<[i := stepBall eta cont dt c]> (balls w))
                    (<[i := fadd ph (fmul dt (lit 2 1))]> (phases w))
                    (isRunning w)).
Proof.
  intros (Hc & Hb & Hp) Hi.
  destruct (lookup_lt_is_Some_2 (balls w) i) as [c Hci]; [lia|].
  destruct (lookup_lt_is_Some_2 (containers w) i) as [cont Hconti]; [lia|].
  destruct (lookup_lt_is_Some_2 (phases w) i) as [ph Hphi]; [lia|].
  destruct (lookup_lt_is_Some_2 (viscosityValues (F := F)) i) as [eta Hetai];
    [done|].
  exists c, cont, eta, ph. unfold updateAt.
  rewrite Hci, Hconti, Hetai, Hphi. done.
Qed.

Lemma resetAt_spec i w :
  wellFormed w -> (i < COUNT)%nat ->
  exists cont,
    containers w !! i = Some cont /\
    resetAt i w =
      Some (mkWorld (containers w)
                    (<[i := mkCircle (startPosition cont) vzero false]> (balls w))
                    (phases w) (isRunning w)).
Proof.
  intros (Hc & Hb & Hp) Hi.
  destruct (lookup_lt_is_Some_2 (balls w) i) as [c Hci]; [lia|].
  destruct (lookup_lt_is_Some_2 (containers w) i) as [cont Hconti]; [lia|].
  exists cont. unfold resetAt. by rewrite Hci, Hconti.
Qed.

Lemma update_shape (dt : F) w :
  wellFormed w ->
  exists w', update dt w = Some w' /\ sameShape w w' /\
    isRunning w' = isRunning w.
Proof.
  intros Hw. unfold update. destruct (isRunning w) eqn:Hrun.
  2:{ exists w. split; [done|]. split; [by split|done]. }
  destruct (forEach_inv
    (fun s => sameShape w s /\ isRunning s = isRunning w)
    (fun i => (i < COUNT)%nat) (updateAt dt) (seq 0 COUNT) w)
    as (w' & Hrun' & Hshape & Hr).
  - intros i s Hi [[Hc Hs] Hr].
    destruct (updateAt_spec dt i s Hs Hi) as (c & cont & eta & ph & _ & _ & _ & _ & ->).
    eexists. split; [done|]. destruct Hs as (H1 & H2 & H3).
    repeat split; simpl; rewrite ?length_insert; done.
  - apply Forall_forall. intros i Hi%elem_of_seq. lia.
  - split; [by split|done].
  - exists w'. rewrite Hrun in Hr. split; [done|by split].
Qed.

Lemma handleEvent_shape e w :
  wellFormed w ->
  exists w', handleEvent e w = Some w' /\ sameShape w w'.
Proof.
  intros Hw. destruct e; simpl;
    try by (eexists; split; [done|]; split; [done|apply Hw]).
  destruct (forEach_inv (fun s => sameShape w s)
    (fun i => (i < COUNT)%nat) resetAt (seq 0 COUNT)
    (mkWorld (containers w) (balls w) (phases w) false))
    as (w' & Hrun' & Hshape).
  - intros i s Hi [Hc Hs].
    destruct (resetAt_spec i s Hs Hi) as (cont & _ & ->).
    eexists. split; [done|]. destruct Hs as (H1 & H2 & H3).
    repeat split; simpl; rewrite ?length_insert; done.
  - apply Forall_forall. intros i Hi%elem_of_seq. lia.
  - split; [done|apply Hw].
  - by exists w'.
Qed.

Lemma frame_shape_visc events (dt : F) w :
  wellFormed w ->
  exists w', frame events dt w = Some w' /\ sameShape w w'.
Proof.
  intros Hw. unfold frame.
  destruct (forEach_inv (fun s => sameShape w s) (fun _ => True)
    handleEvent events w) as (w1 & -> & Hc1 & Hw1).
  - intros e s _ [Hc Hs].
    destruct (handleEvent_shape e s Hs) as (s' & -> & Hc' & Hs').
    exists s'. split; [done|]. split; [congruence|done].
  - by apply Forall_forall.
  - done.
  - simpl. destruct (update_shape dt w1 Hw1) as (w' & -> & [Hc' Hw'] & _).
    exists w'. split; [done|]. split; [congruence|done].
Qed.

Lemma viscosity_run_safe_aux (winW winH : F)
    (frames : list (list Event * F)) :
  exists w, runFrames frames (init winW winH) = Some w /\
    containers w = containers (init winW winH) /\
    length (balls w) = 5%nat /\ length (phases w) = 5%nat.
Proof.
  assert (Hgen : forall w0, wellFormed w0 ->
    exists w, runFrames frames w0 = Some w /\ sameShape w0 w).
  { induction frames as [|[events dt] frames IH]; intros w0 Hw0; simpl.
    { exists w0. split; [done|]. by split. }
    destruct (frame_shape_visc events dt w0 Hw0) as (w1 & -> & Hc1 & Hw1).
    simpl. destruct (existsb isClosed events); [by exists w1|].
    destruct (IH w1 Hw1) as (w & Hrun & Hc & Hw).
    exists w. split; [done|]. split; [congruence|done]. }
  destruct (Hgen (init winW winH) (init_wellFormed winW winH))
    as (w & Hrun & Hc & _ & Hb & Hp).
  by exists w.
Qed.

(** X18.  From the set-up, for every window size, every sequence of events
    and every clock value, no frame of the viscosity simulation fails: each
    [balls[i]], [containers[i]], [viscosityValues[i]] and [phases[i]] is an
    entry of its vector, the vectors keep their five entries, and the
    containers never change. *)
Theorem viscosity_run_safe (winW winH : F) (frames : list (list Event * F)) :
  exists w, runFrames frames (init winW winH) = Some w /\
    containers w = containers (init winW winH) /\
    length (balls w) = 5%nat /\ length (phases w) = 5%nat.
Proof. apply viscosity_run_safe_aux. Qed.

(** *** A settled ball, and the R key *)

Lemma update_settled (dt : F) w i c :
  wellFormed w -> balls w !! i = Some c -> settled c = true ->
  exists w', update dt w = Some w' /\ balls w' !! i = Some c.
Proof.
  intros Hw Hc Hs. unfold update. destruct (isRunning w); [|by exists w].
  destruct (forEach_inv
    (fun s => wellFormed s /\ balls s !! i = Some c)
    (fun k => (k < COUNT)%nat) (updateAt dt) (seq 0 COUNT) w)
    as (w' & Hrun & _ & Hc'); [| |done|by exists w'].
  - intros k s Hk [Hws Hcs].
    destruct (updateAt_spec dt k s Hws Hk)
      as (ck & cont & eta & ph & Hck & _ & _ & _ & ->).
    eexists. split; [done|]. destruct Hws as (H1 & H2 & H3). split.
    + repeat split; simpl; rewrite ?length_insert; done.
    + simpl. destruct (decide (k = i)) as [->|Hne].
      * rewrite Hcs in Hck. injection Hck as <-.
        rewrite list_lookup_insert_eq by (by apply lookup_lt_Some in Hcs).
        unfold stepBall. by rewrite Hs.
      * by rewrite list_lookup_insert_ne.
  - apply Forall_forall. intros k Hk%elem_of_seq. lia.
Qed.

(** X19.  A settled ball stays where it is: in a frame without the R key, a
    ball that is settled before the frame is the same ball after it (same
    position, velocity zero as set when it settled, still settled), whatever
    the other events, the clock value and the other balls. *)
Theorem settled_stays events (dt : F) w i c :
  wellFormed w ->
  Forall (fun e => e <> RKey) events ->
  balls w !! i = Some c -> settled c = true ->
  exists w', frame events dt w = Some w' /\ balls w' !! i = Some c.
Proof.
  intros Hw Hno Hc Hs. unfold frame.
  destruct (forEach_inv (fun s => wellFormed s /\ balls s !! i = Some c)
    (fun e => e <> RKey) handleEvent events w) as (w1 & -> & Hw1 & Hc1);
    [|done|done|].
  - intros e s He [Hws Hcs]. destruct e; try done; simpl; by eexists.
  - simpl. by apply update_settled.
Qed.

(** X20.  The R key restores the start of the experiment whatever happened
    before: after any frames from the set-up, R puts every ball back at its
    start position with velocity zero and not settled, exactly as the set-up
    placed it, and stops the simulation until the space key. *)
Theorem rkey_restores_start (winW winH : F) (frames : list (list Event * F)) :
  exists w w',
    runFrames frames (init winW winH) = Some w /\
    handleEvent RKey w = Some w' /\
    balls w' = balls (init winW winH) /\
    isRunning w' = false /\
    (forall dt, update dt w' = Some w').
Proof.
  destruct (viscosity_run_safe_aux winW winH frames) as (w & Hrun & Hc & Hb & Hp).
  exists w. simpl in Hc.
  destruct (balls w) as [|b0 [|b1 [|b2 [|b3 [|b4 [|b5 bs]]]]]] eqn:Hbs;
    try discriminate Hb.
  eexists. split; [done|]. split.
  { simpl. rewrite Hc, Hbs. reflexivity. }
  simpl. split; [done|]. split; [done|]. intros dt. reflexivity.
Qed.
End ViscosityLaws.

(** ** Laws of the projectile simulation, in any scalar arithmetic *)
Section ProjectileLaws.
Context {F : Type} `{Scalar F}.
Import Projectile.
Implicit Types (s : State F).

Lemma handleEvent_flagsOk s e : flagsOk s -> flagsOk (handleEvent s e).
Proof.
  destruct s as [a l p ld pos v pv mh rg mv].
  unfold flagsOk. destruct e as [| |mp|]; simpl; try done.
  - unfold press. simpl. destruct l; simpl; intuition congruence.
  - unfold release. simpl. destruct a; simpl; [|done].
    destruct (_ <? _)%sc; simpl; intuition congruence.
Qed.

Lemma physics_flagsOk (dt pauseElapsed : F) s :
  flagsOk s -> flagsOk (physics dt pauseElapsed s).
Proof.
  destruct s as [a l p ld pos v pv mh rg mv].
  unfold flagsOk, physics. simpl. destruct l, p, ld; simpl;
    repeat match goal with
           | |- context [if ?b then _ else _] => destruct b; simpl
           end;
    intuition congruence.
Qed.

Lemma landing_flagsOk s : flagsOk s -> flagsOk (landing s).
Proof.
  destruct s as [a l p ld pos v pv mh rg mv].
  unfold flagsOk, landing. simpl. destruct l, p, ld; simpl;
    repeat match goal with
           | |- context [if ?b then _ else _] => destruct b; simpl
           end;
    intuition congruence.
Qed.

Lemma rearm_flagsOk (resultElapsed : F) s :
  flagsOk s -> flagsOk (rearm resultElapsed s).
Proof.
  destruct s as [a l p ld pos v pv mh rg mv].
  unfold flagsOk, rearm. simpl. destruct ld; simpl; [|done].
  destruct (_ <=? _)%sc; simpl; intuition congruence.
Qed.

Lemma frame_flagsOk events (dt pauseElapsed resultElapsed : F) s :
  flagsOk s -> flagsOk (frame events dt pauseElapsed resultElapsed s).
Proof.
  intros Hs. unfold frame.
  apply rearm_flagsOk, landing_flagsOk, physics_flagsOk.
  revert s Hs. induction events as [|e events IH]; intros s Hs; [done|].
  simpl. by apply IH, handleEvent_flagsOk.
Qed.

Lemma frame_grounded events (dt pauseElapsed resultElapsed : F) s :
  flagsOk s -> grounded s ->
  grounded (frame events dt pauseElapsed resultElapsed s).
Proof.
  intros Hs Hg.
  assert (Hev : flagsOk (foldl handleEvent s events) /\
                grounded (foldl handleEvent s events)).
  { revert s Hs Hg. induction events as [|e events IH]; intros s Hs Hg;
      [done|].
    simpl. apply IH; [by apply handleEvent_flagsOk|].
    destruct s as [a l p ld pos v pv mh rg mv].
    unfold flagsOk, grounded in *. simpl in *.
    destruct e as [| |mp|]; simpl; try done.
    - unfold press. simpl. destruct l; simpl; [done|]. intuition congruence.
    - unfold release. simpl. destruct a; simpl; [|done].
      destruct (_ <? _)%sc; simpl; intuition congruence. }
  destruct Hev as [Hs1 Hg1]. unfold frame.
  destruct (foldl handleEvent s events) as [a l p ld pos v pv mh rg mv].
  clear Hs Hg. unfold flagsOk, grounded in *. simpl in *.
  unfold rearm, landing, physics. simpl.
  destruct l, p, ld; simpl;
    repeat match goal with
           | |- context [if ?b then _ else _] => destruct b; simpl
           end;
    intuition congruence.
Qed.

(** X10.  A landed ball lies on the ground line: over every run from the
    start, whenever the landed flag is set the ball's y is the ground line
    (window height minus the ball radius) and the range shown is the ball's
    x minus the cannon's x. Presses, releases and the physics step do not
    move a landed ball. *)
Theorem landed_on_ground (frames : list (list (Event F) * (F * F * F))) :
  let s := runFrames frames init in
  landed s = true ->
  vy (ballPos s) = (windowHeight ⊖ ballR)%sc /\
  range s = (vx (ballPos s) ⊖ vx cannonPos)%sc.
Proof.
  assert (Hgen : forall s0, flagsOk s0 -> grounded s0 ->
            flagsOk (runFrames frames s0) /\ grounded (runFrames frames s0)).
  { induction frames as [|[events [[dt pe] re]] frames IH]; intros s0 Hs0 Hg0;
      [done|].
    simpl. destruct (existsb isClosed events); [split|apply IH];
      by (apply frame_flagsOk || apply frame_grounded). }
  destruct (Hgen init) as [_ Hg]; [by repeat split|done|exact Hg].
Qed.

(** X23.  The flags of the projectile simulation stay consistent over every
    run from the start: the player is never aiming while a ball is launched,
    the pause at the peak only occurs for a launched ball that has not
    landed, and the landed flag (which shows the results) is only set for a
    launched ball. *)
Theorem flags_consistent (frames : list (list (Event F) * (F * F * F))) :
  let s := runFrames frames init in
  (aiming s = true -> launched s = false) /\
  (peakPause s = true -> launched s = true /\ landed s = false) /\
  (landed s = true -> launched s = true).
Proof.
  assert (Hgen : forall s0, flagsOk s0 -> flagsOk (runFrames frames s0)).
  { induction frames as [|[events [[dt pe] re]] frames IH]; intros s0 Hs0;
      [done|].
    simpl. destruct (existsb isClosed events); [|apply IH];
      by apply frame_flagsOk. }
  apply Hgen. by repeat split.
Qed.
Lemma fmin_capped (a cap : F) :
  (cap <? cap)%sc = false -> (cap <? fmin a cap)%sc = false.
Proof. intros Hirr. unfold fmin. by destruct (cap <? a)%sc eqn:Hlt. Qed.

Lemma handleEvent_maxVel s e :
  (lit 1000 1 <? lit 1000 1)%sc = false ->
  (lit 1000 1 <? maxVel s)%sc = false ->
  (lit 1000 1 <? maxVel (handleEvent s e))%sc = false.
Proof.
  intros Hirr Hs. destruct e as [| |mp|]; simpl; try done.
  - unfold press. by destruct (negb _).
  - unfold release. destruct (aiming s); [|done].
    destruct (lit 0 1 <? fhypot _ _)%sc; [|done]. simpl.
    by apply fmin_capped.
Qed.

Lemma frame_maxVel events (dt pauseElapsed resultElapsed : F) s :
  maxVel (frame events dt pauseElapsed resultElapsed s) =
  maxVel (foldl handleEvent s events).
Proof.
  unfold frame. destruct (foldl handleEvent s events)
    as [a l p ld pos v pv mh rg mv].
  unfold rearm, landing, physics. simpl.
  destruct l, p, ld; simpl;
    repeat match goal with
           | |- context [if ?b then _ else _] => destruct b; simpl
           end;
    reflexivity.
Qed.

(** X24.  The launch speed is capped.  A release while aiming, with the
    pointer at a distance [len > 0] from the cannon, launches the ball: it
    records [maxVel = min (len * 4) 1000] and gives the ball the direction
    to the pointer scaled by that speed; and over every run from the start
    the recorded [maxVel] is never above 1000.  The arithmetic is only asked
    that [1000 < 1000] and [1000 < 0] are false. *)
Theorem launch_speed_capped :
  (lit 1000 1 <? lit 1000 1)%sc = false ->
  (lit 1000 1 <? lit 0 1)%sc = false ->
  (forall (mp : Vec2 F) s,
     aiming s = true ->
     let dir := vsub mp cannonPos in
     let len := fhypot (vx dir) (vy dir) in
     (lit 0 1 <? len)%sc = true ->
     let s' := release mp s in
     launched s' = true /\ aiming s' = false /\
     maxVel s' = fmin (len ⊗ lit 4 1)%sc (lit 1000 1) /\
     velocity s' = vscale (vdiv dir len) (maxVel s') /\
     (lit 1000 1 <? maxVel s')%sc = false) /\
  (forall frames : list (list (Event F) * (F * F * F)),
     (lit 1000 1 <? maxVel (runFrames frames init))%sc = false).
Proof.
  intros Hirr Hzero. split.
  - intros mp s Haim dir len Hlen s'. subst s'. unfold release.
    rewrite Haim. fold dir. fold len. rewrite Hlen. simpl.
    repeat split. by apply fmin_capped.
  - assert (Hgen : forall frames s0,
              (lit 1000 1 <? maxVel s0)%sc = false ->
              (lit 1000 1 <? maxVel (runFrames frames s0))%sc = false).
    { induction frames as [|[events [[dt pe] re]] frames IH]; intros s0 Hs0;
        [done|].
      assert (Hfr : (lit 1000 1 <? maxVel (frame events dt pe re s0))%sc
                    = false).
      { rewrite frame_maxVel. clear IH. revert s0 Hs0.
        induction events as [|e events IHe]; intros s0 Hs0; [done|].
        simpl. by apply IHe, handleEvent_maxVel. }
      simpl. destruct (existsb isClosed events); [done|by apply IH]. }
    intros frames. by apply Hgen.
Qed.
End ProjectileLaws.

(** ** Laws of the other simulations in exact arithmetic *)
Section MoreExactLaws.
Local Open Scope R_scope.

(** Reading the operations at the instance [exact]. *)
Ltac real_ops :=
  cbn [lit fadd fsub fmul fdiv fneg flt fle fhypot exact] in *;
  unfold Exact.literal in *.

(** *** Viscosity *)

(** X21.  A falling ball never passes its rest line, the line one radius
    (10) above the floor of its container: after a step of a ball that was
    not settled, the bottom of the ball is on that line or above it; the
    ball settles exactly when the step reaches the line, and then its bottom
    is on the line (its center 20 above the floor) and its velocity is
    zero. *)
Theorem fall_stops_at_rest_line (eta dt : R) (cont : Viscosity.Container R)
    (c : Viscosity.PhysicsCircle R) :
  Viscosity.settled c = false ->
  let restLine :=
    vy (Viscosity.contPos cont) + vy (Viscosity.contSize cont) - 10 in
  let c' := Viscosity.stepBall eta cont dt c in
  Viscosity.bottom c' <= restLine /\
  (Viscosity.settled c' = true ->
   Viscosity.bottom c' = restLine /\
   vy (Viscosity.position c') = restLine - 10 /\
   Viscosity.velocity c' = vzero) /\
  (Viscosity.settled c' = false -> Viscosity.bottom c' < restLine).
Proof.
  intros Hs restLine c'. subst restLine c'.
  unfold Viscosity.stepBall. rewrite Hs. unfold Viscosity.fall.
  destruct c as [[x y] [u v] st]. simpl in Hs. subst st.
  unfold Viscosity.bottom, Viscosity.setBottom, Viscosity.radius,
    Viscosity.PROJECTILE_GRAVITY. simpl. real_ops.
  unfold Exact.leb. destruct (Rle_dec _ _) as [Hle|Hgt]; simpl.
  - split; [lra|]. split; [|done]. intros _. split; [lra|]. split; [lra|done].
  - split; [lra|]. split; [done|]. intros _. lra.
Qed.

Lemma handleEvent_keeps_fall (s : Projectile.State R) e :
  (forall mp, e <> Projectile.LeftReleased mp) ->
  Projectile.velocity (Projectile.handleEvent s e) = Projectile.velocity s /\
  Projectile.prevVy (Projectile.handleEvent s e) = Projectile.prevVy s /\
  Projectile.peakPause (Projectile.handleEvent s e) = Projectile.peakPause s.
Proof.
  intros He. destruct e as [| |mp|]; simpl; try done.
  - unfold Projectile.press. by destruct (negb _).
  - by destruct (He mp).
Qed.

Lemma events_keep_fall (events : list (Projectile.Event R))
    (s : Projectile.State R) :
  Forall (fun e => forall mp, e <> Projectile.LeftReleased mp) events ->
  Projectile.velocity (foldl Projectile.handleEvent s events) =
    Projectile.velocity s /\
  Projectile.prevVy (foldl Projectile.handleEvent s events) =
    Projectile.prevVy s /\
  Projectile.peakPause (foldl Projectile.handleEvent s events) =
    Projectile.peakPause s.
Proof.
  intros Hev. revert s.
  induction Hev as [|e events He _ IH]; intros s; [done|]. simpl.
  destruct (IH (Projectile.handleEvent s e)) as (-> & -> & ->).
  by apply handleEvent_keeps_fall.
Qed.

(** X25.  No second peak: while the ball is not moving up (its vertical
    velocity and the vertical velocity of the previous frame are not
    negative, as after the pause at the peak or after a downward launch), a
    frame without a release and with [dt >= 0] keeps both non-negative and
    never starts a pause at the peak. *)
Theorem no_second_peak (events : list (Projectile.Event R))
    (dt pauseElapsed resultElapsed : R) (s : Projectile.State R) :
  Forall (fun e => forall mp, e <> Projectile.LeftReleased mp) events ->
  0 <= dt ->
  0 <= vy (Projectile.velocity s) -> 0 <= Projectile.prevVy s ->
  let s' := Projectile.frame events dt pauseElapsed resultElapsed s in
  0 <= vy (Projectile.velocity s') /\ 0 <= Projectile.prevVy s' /\
  (Projectile.peakPause s' = true -> Projectile.peakPause s = true).
Proof.
  intros Hev Hdt Hv Hpv s'. subst s'. unfold Projectile.frame.
  destruct (events_keep_fall events s Hev) as (Hv1 & Hpv1 & Hpp1).
  set (s1 := foldl Projectile.handleEvent s events) in *.
  rewrite <- Hv1 in Hv.
  rewrite <- Hpv1 in Hpv. rewrite <- Hpp1. clearbody s1. clear Hv1 Hpv1 Hpp1.
  destruct s1 as [a l p ld pos [u v] pv mh rg mv]. simpl in *.
  unfold Projectile.rearm, Projectile.landing, Projectile.physics,
    Projectile.PROJECTILE_GRAVITY. simpl.
  assert (Hno : Exact.ltb pv (0 / 1) = false) by (apply ltb_false; lra).
  assert (Hv1 : 0 <= v + 500 / 1 * dt) by nra.
  destruct l, p, ld; simpl; real_ops; rewrite ?Hno, ?andb_false_r; simpl;
    repeat match goal with
           | |- context [if ?b then _ else _] => destruct b; simpl
           end;
    repeat split; try done; try lra.
Qed.

(** *** Orbit *)

(** X27.  The zoom stays within its limits: after a mouse wheel event the
    zoom factor is between 0.1 and 10, whatever it was before and whatever
    the scroll. *)
Theorem scroll_clamped (delta zoom : R) :
  1 / 10 <= Orbit.scroll delta zoom <= 10.
Proof.
  unfold Orbit.scroll. real_ops. unfold Exact.ltb.
  repeat (destruct (Rlt_dec _ _); simpl); lra.
Qed.

(** X28.  The orbit angle stays within one turn: for a planet with a positive
    period, a clock value between 0 and the duration of one revolution
    ([orbitPeriod * 86400 / TIME_SCALE] seconds) and an angle between 0 and
    [2 * PI], the angle after [update] is between 0 and [2 * PI] again, and it
    is the old angle plus the advance of the frame, less one turn when that
    sum exceeds a turn. *)
Theorem update_angle_wraps (dt : R) (p : Orbit.Planet R) :
  0 < Orbit.orbitPeriod p ->
  0 <= dt <= Orbit.orbitPeriod p * 86400 / 9999999 ->
  0 <= Orbit.currentOrbitAngle p <= 2 * Orbit.PI ->
  let advance :=
    2 * Orbit.PI / (Orbit.orbitPeriod p * 86400 / 9999999) * dt in
  let angle' := Orbit.currentOrbitAngle (Orbit.update dt p) in
  0 <= angle' <= 2 * Orbit.PI /\
  (angle' = Orbit.currentOrbitAngle p + advance \/
   angle' = Orbit.currentOrbitAngle p + advance - 2 * Orbit.PI).
Proof.
  intros Hper Hdt Hangle advance angle'. subst angle'.
  assert (Hpi : 0 < 2 * Orbit.PI) by (unfold Orbit.PI; real_ops; lra).
  destruct p as [r per angle tr].
  unfold Orbit.update, Orbit.TIME_SCALE.
  cbn [Orbit.orbitPeriod Orbit.currentOrbitAngle] in *. real_ops.
  replace (2 / 1 * Orbit.PI) with (2 * Orbit.PI) by lra.
  replace (per * (86400 / 1) / (9999999 / 1)) with (per * 86400 / 9999999)
    by field.
  fold advance.
  set (pi2 := 2 * Orbit.PI) in *. clearbody pi2.
  assert (Hrev : 0 < per * 86400 / 9999999) by lra.
  set (rev := per * 86400 / 9999999) in *. clearbody rev.
  assert (Hadv : 0 <= advance <= pi2).
  { unfold advance. split.
    - apply Rmult_le_pos; [|lra]. apply Rlt_le, Rdiv_lt_0_compat; lra.
    - replace pi2 with (pi2 / rev * rev) at 2 by (field; lra).
      apply Rmult_le_compat_l; [|lra].
      apply Rlt_le, Rdiv_lt_0_compat; lra. }
  clearbody advance. unfold Exact.ltb.
  destruct (Rlt_dec _ _); simpl.
  - split; [lra|by right].
  - split; [lra|by left].
Qed.

(** *** At concrete states *)

(** A ball in the first container, one frame at 60 frames per second. *)
Lemma fall_stops_at_rest_line_witness :
  let cont : Viscosity.Container R :=
    Viscosity.mkContainer (vecAt 1 0 0) (vecAt 1 150 400) in
  let c : Viscosity.PhysicsCircle R :=
    Viscosity.mkCircle (vecAt 1 75 190) vzero false in
  Viscosity.bottom (Viscosity.stepBall 5 cont (1 / 60) c) <= 0 / 1 + 400 / 1 - 10.
Proof.
  intros cont c.
  by destruct (fall_stops_at_rest_line 5 (1 / 60) cont c eq_refl) as [Hle _].
Defined.

(** A ball in flight, moving down and to the right, and a frame at 60
    frames per second in which the button is pressed: the flight step runs,
    the vertical velocity grows by [500 / 60], and no pause starts. *)
Lemma no_second_peak_witness :
  let s : Projectile.State R :=
    Projectile.mkState false true false false (vecAt 1 200 300)
      (vecAt 1 100 50) 50 0 0 1000 in
  let s' :=
    Projectile.frame [Projectile.LeftPressed; Projectile.OtherEvent]
      (1 / 60) 0 0 s in
  Projectile.launched s = true /\
  vy (Projectile.velocity s') = 50 + 500 / 60 /\
  0 <= Projectile.prevVy s' /\ Projectile.peakPause s' = false.
Proof.
  intros s s'. split; [reflexivity|]. split.
  { subst s' s. unfold Projectile.frame, Projectile.rearm, Projectile.landing,
      Projectile.physics, Projectile.PROJECTILE_GRAVITY, Projectile.press,
      Projectile.windowHeight, Projectile.ballR. simpl. real_ops.
    unfold Exact.leb, Exact.ltb.
    repeat match goal with
           | |- context [Rle_dec ?a ?b] => destruct (Rle_dec a b); try lra
           | |- context [Rlt_dec ?a ?b] => destruct (Rlt_dec a b); try lra
           end; simpl; lra. }
  destruct (no_second_peak [Projectile.LeftPressed; Projectile.OtherEvent]
              (1 / 60) 0 0 s) as (_ & Hpv & Hpp).
  - by repeat constructor.
  - lra.
  - simpl. real_ops. lra.
  - simpl. lra.
  - split; [exact Hpv|]. fold s' in Hpp.
    destruct (Projectile.peakPause s'); [|done]. by specialize (Hpp eq_refl).
Defined.

(** The Earth, one frame. *)
Lemma update_angle_wraps_witness :
  let p : Orbit.Planet R := Orbit.mkPlanet 150 (1461 / 4) 0 [] in
  0 <= Orbit.currentOrbitAngle (Orbit.update (1 / 60) p) <= 2 * Orbit.PI.
Proof.
  intros p. apply (update_angle_wraps (1 / 60) p); simpl.
  - lra.
  - lra.
  - unfold Orbit.PI. real_ops. lra.
Defined.
End MoreExactLaws.

(** ** The further laws at concrete machine states *)
Section MoreInstances.
Local Open Scope Z_scope.

(** A drag in progress, the space key, then a release and other events. *)
Lemma space_key_cancels_witness :
  let w : World spec_float :=
    mkWorld [ballAt 1 100 100 3 4; ballAt 1 200 100 5 6] true 0
            (vecAt 1 100 100) in
  let events : list (Event spec_float) :=
    [LeftReleased (vecAt 1 200 200); SpacePressed; OtherEvent; Closed] in
  foldl handleEvent (handleEvent w SpacePressed) events =
    mkWorld [ballAt 1 100 100 0 0; ballAt 1 200 100 0 0] false 0
            (vecAt 1 100 100).
Proof.
  intros w events.
  destruct (space_key_cancels w events) as (_ & _ & ->); [|reflexivity].
  repeat constructor; intros m; discriminate.
Defined.

(** A ball beyond the left and the top wall. *)
Lemma wallCollide_corner_still_crossed_witness :
  let b : Ball spec_float := ballAt 1 60 60 (-10) (-10) in
  crossedLeft bounds (position b) b = true /\
  crossedLeft bounds (position (wallCollide bounds b)) (wallCollide bounds b)
    = true.
Proof.
  intros b. split; [reflexivity|].
  destruct (wallCollide_corner_still_crossed bounds b) as [-> _];
    reflexivity.
Defined.

(** One ball. *)
Lemma tick_short_witness :
  let bs : list (Ball spec_float) := [ballAt 1 100 100 30 40] in
  tick bounds (lit 1 4) bs = Some (moveAndWall bounds (lit 1 4) <$> bs).
Proof.
  intros bs. apply tick_short. simpl. lia.
Defined.

(** A press inside ball 1 only. *)
Lemma startDrag_opens_iff_witness :
  let w : World spec_float :=
    mkWorld [ballAt 1 100 100 3 4; ballAt 1 200 100 5 6] false (-1) vzero in
  let m : Vec2 spec_float := vecAt 1 205 100 in
  dragging (startDrag m w) = true /\
  exists b, balls w !! Z.to_nat (dragIndex (startDrag m w)) = Some b /\
            picks m b = true.
Proof.
  intros w m.
  destruct (startDrag_opens_iff m w eq_refl) as [_ Hopen].
  split; [reflexivity|]. apply Hopen. reflexivity.
Defined.

(** Three choices, the exit choice, and one read that is never made. *)
Lemma menu_runs_choices_witness :
  omap Menu.ran
    (Menu.main ([Some 3; Some 7; Some 1] ++ Some 5 :: [Some 2])) =
  [Menu.Collision; Menu.Orbit].
Proof.
  destruct (menu_runs_choices [Some 3; Some 7; Some 1] (Some 5) [Some 2])
    as (-> & _ & _); [|by right|reflexivity].
  repeat constructor; eexists; (split; [reflexivity|discriminate]).
Defined.

(** The first ball lies settled; the space key and another event arrive. *)
Lemma settled_stays_witness :
  let w0 : Viscosity.World spec_float :=
    Viscosity.init (lit 1920 1) (lit 1080 1) in
  let c : Viscosity.PhysicsCircle spec_float :=
    Viscosity.mkCircle (vecAt 1 100 380) vzero true in
  let w : Viscosity.World spec_float :=
    Viscosity.mkWorld (Viscosity.containers w0)
      (<[0%nat := c]> (Viscosity.balls w0)) (Viscosity.phases w0) false in
  exists w',
    Viscosity.frame [Viscosity.SpaceKey; Viscosity.OtherEvent] (lit 1 60) w
      = Some w' /\
    Viscosity.balls w' !! 0%nat = Some c.
Proof.
  intros w0 c w. apply settled_stays.
  - repeat split.
  - repeat constructor; discriminate.
  - reflexivity.
  - reflexivity.
Defined.

(** A shot aimed below the horizontal lands within its first frame. *)
Lemma landed_on_ground_witness :
  let frames : list (list (Projectile.Event spec_float) *
                     (spec_float * spec_float * spec_float)) :=
    [([Projectile.LeftPressed; Projectile.LeftReleased (vecAt 1 350 596)],
      (lit 1 10, lit 0 1, lit 0 1))] in
  let s := Projectile.runFrames frames Projectile.init in
  Projectile.landed s = true /\
  vy (Projectile.ballPos s) = lit 592 1.
Proof.
  intros frames s.
  assert (Hl : Projectile.landed s = true) by reflexivity.
  split; [exact Hl|].
  destruct (landed_on_ground frames Hl) as [Hy _].
  fold s in Hy. rewrite Hy. reflexivity.
Defined.

(** A press and a release far from the cannon: the speed is the cap. *)
Lemma launch_speed_capped_witness :
  let frames : list (list (Projectile.Event spec_float) *
                     (spec_float * spec_float * spec_float)) :=
    [([Projectile.LeftPressed; Projectile.LeftReleased (vecAt 1 750 100)],
      (lit 1 60, lit 0 1, lit 0 1))] in
  let s := Projectile.runFrames frames Projectile.init in
  Projectile.launched s = true /\
  Projectile.maxVel s = lit 1000 1 /\
  (lit 1000 1 <? Projectile.maxVel s)%sc = false.
Proof.
  intros frames s.
  split; [by vm_compute|]. split; [by vm_compute|].
  assert (Hirr : ((lit 1000 1 : spec_float) <? lit 1000 1)%sc = false)
    by reflexivity.
  assert (Hzero : ((lit 1000 1 : spec_float) <? lit 0 1)%sc = false)
    by reflexivity.
  destruct (launch_speed_capped Hirr Hzero) as [_ Hrun].
  exact (Hrun frames).
Defined.

End MoreInstances.
